(** * The reactor core of pro_muduo: EventLoop, Thread and TcpConnection

    A shallow embedding of [EventLoop.cc], [Thread.cc] and the inline
    members of [TcpConnection.h], with the properties the specification
    states about them.

    Conventions of the embedding:
    - C++ [int], [ssize_t], [size_t] and file descriptors are [Z]; the
      signed/unsigned conversions the code performs are written out;
    - a member function is a computation in the monad [M] over the
      object's fields, and every observable action (system call, log line,
      mutex operation, callback invocation) is appended to a history;
    - the operating system and the poller are an environment that answers
      each request as a function of the history so far;
    - a [std::function<void()>] handed to the loop is a finite program over
      the loop's public interface ([Functor]). *)

From Stdlib Require Import ZArith List String Ascii Bool Lia.
From stdpp Require Import base gmap list strings.

(** ** Callbacks, channels and the history of observable actions *)

(** [CurrentThread::tid()] is an [int]. *)
Definition tid : Type := Z.
(** [Timestamp] wraps a 64-bit count of microseconds. *)
Definition Timestamp : Type := Z.
Bind Scope Z_scope with tid Timestamp.

(** What a callback given to the loop may do to it: user work that leaves
    the loop alone, or calls of the public members [quit], [wakeup],
    [queueInLoop] and [runInLoop], in sequence. *)
Inductive Functor : Type :=
| FUser (id : nat)
| FQuit
| FWakeup
| FQueueInLoop (cb : Functor)
| FRunInLoop (cb : Functor)
| FSeq (first second : Functor).

(** A [Channel*] in [activeChannels_]: the loop's own wake-up channel,
    whose read callback is bound to [EventLoop::handleRead]
    (EventLoop.cc:55), or a channel of some descriptor, where [cb] stands
    for the user callbacks its [handleEvent] runs for the events the
    poller reported. *)
Inductive Channel : Type :=
| WakeupChannel
| IoChannel (fd : Z) (cb : Functor).

Inductive LogLevel : Type := LvInfo | LvError | LvFatal | LvDebug.

Inductive Event : Type :=
| EvLog (lvl : LogLevel) (fmt : string)
| EvEventfd (ret : Z)
| EvSysWrite (fd value len ret : Z)
| EvSysRead (fd len ret : Z)
| EvClose (fd : Z)
| EvLock
| EvUnlock
| EvPush (cb : Functor)
| EvSwap (functors : list Functor)
| EvQuitCheck (quit : bool)
| EvPoll (timeoutMs : Z) (now : Timestamp) (active : list Channel)
| EvHandleEvent (ch : Channel) (receiveTime : Timestamp)
| EvFunctor (cb : Functor)
| EvInline (cb : Functor)
| EvUser (id : nat)
| EvSetReadCallback (fd : Z)
| EvEnableReading (fd : Z)
| EvDisableAll (fd : Z)
| EvRemove (fd : Z).

(** The environment: what the kernel returns from [eventfd], [write] and
    [read], and what [Poller::poll] reports, given the history so far. *)
Record Env : Type := mkEnv {
  os_eventfd : list Event -> Z;
  os_write : list Event -> Z;
  os_read : list Event -> Z;
  os_poll : list Event -> Timestamp * list Channel
}.

(** ** The monad of member functions *)

Record World (St : Type) : Type := mkWorld {
  state : St;
  trace : list Event
}.
Arguments mkWorld {St} _ _.
Arguments state {St} _.
Arguments trace {St} _.

(** A call returns normally, terminates the process, or (only for
    [EventLoop::loop]) is still running when the iteration budget ends. *)
Inductive Result (St A : Type) : Type :=
| Ret (a : A) (w : World St)
| Abort (w : World St)
| OutOfFuel (w : World St).
Arguments Ret {St A} _ _.
Arguments Abort {St A} _.
Arguments OutOfFuel {St A} _.

Definition M (St A : Type) : Type := World St -> Result St A.

Definition ret {St A} (a : A) : M St A := fun w => Ret a w.

Definition bind {St A B} (m : M St A) (k : A -> M St B) : M St B :=
  fun w =>
    match m w with
    | Ret a w' => k a w'
    | Abort w' => Abort w'
    | OutOfFuel w' => OutOfFuel w'
    end.

Declare Scope reactor_scope.
Delimit Scope reactor_scope with reactor.
Notation "x <- m ;; k" := (bind m (fun x => k))
  (at level 100, m at next level, k at level 200, right associativity)
  : reactor_scope.
Notation "m ;; k" := (bind m (fun _ => k))
  (at level 100, k at level 200, right associativity) : reactor_scope.
Local Open Scope reactor_scope.

Definition gets {St A} (f : St -> A) : M St A := fun w => Ret (f (state w)) w.

Definition modify {St} (f : St -> St) : M St unit :=
  fun w => Ret tt (mkWorld (f (state w)) (trace w)).

Definition emit {St} (e : Event) : M St unit :=
  fun w => Ret tt (mkWorld (state w) (trace w ++ [e])).

Fixpoint for_each {St A} (f : A -> M St unit) (l : list A) : M St unit :=
  match l with
  | [] => ret tt
  | x :: l' => f x ;; for_each f l'
  end.

(** ** Logger.h *)

(** Modelled from the spec: the logging macros of [Logger.h], which is not
    among the sources.  "Invariant violations abort the process with a
    diagnostic" and a short write is "logged but not fatal": [LOG_FATAL]
    writes its line and terminates the process, the other levels write
    their line and continue. *)
Definition LOG_INFO {St} (fmt : string) : M St unit := emit (EvLog LvInfo fmt).
Definition LOG_ERROR {St} (fmt : string) : M St unit := emit (EvLog LvError fmt).
Definition LOG_DEBUG {St} (fmt : string) : M St unit := emit (EvLog LvDebug fmt).
Definition LOG_FATAL {St A} (fmt : string) : M St A :=
  fun w => Abort (mkWorld (state w) (trace w ++ [EvLog LvFatal fmt])).

(** ** Integer conversions *)

(** The value a 64-bit [ssize_t] carries. *)
Definition ssize_t_of (n : Z) : Z := ((n + 2 ^ 63) mod 2 ^ 64 - 2 ^ 63)%Z.
(** Conversion to [size_t], as in the comparison [n != sizeof one]. *)
Definition size_t_of (n : Z) : Z := (n mod 2 ^ 64)%Z.
(** [sizeof one] for [uint64_t one]. *)
Definition sizeof_one : Z := 8%Z.

(** ** System calls *)

Section SystemCalls.
Variable env : Env.
Context {St : Type}.

Definition sys_eventfd : M St Z :=
  fun w =>
    let r := os_eventfd env (trace w) in
    Ret r (mkWorld (state w) (trace w ++ [EvEventfd r])).

Definition sys_write (fd value len : Z) : M St Z :=
  fun w =>
    let n := ssize_t_of (os_write env (trace w)) in
    Ret n (mkWorld (state w) (trace w ++ [EvSysWrite fd value len n])).

Definition sys_read (fd len : Z) : M St Z :=
  fun w =>
    let n := ssize_t_of (os_read env (trace w)) in
    Ret n (mkWorld (state w) (trace w ++ [EvSysRead fd len n])).

Definition sys_close (fd : Z) : M St unit := emit (EvClose fd).
End SystemCalls.

(** ** EventLoop.cc: file-scope definitions *)

(** The namespace-scope definitions of EventLoop.cc, in the order of the
    file (lines 15, 16 and 19). *)
Inductive Decl : Type :=
| ConstInt (name : string) (value : Z)
| ThreadLocalPtr (name : string).

Definition EventLoop_cc_decls : list Decl :=
  [ ConstInt "kPollTimeMs" 10000;
    ThreadLocalPtr "t_loopInThisThread";
    ConstInt "kPollTimeMs" 10000 ].

Definition defines (name : string) (d : Decl) : bool :=
  match d with
  | ConstInt n _ => String.eqb n name
  | ThreadLocalPtr n => String.eqb n name
  end.

Definition definitions_of (name : string) (ds : list Decl) : list Decl :=
  List.filter (defines name) ds.

Definition const_value (d : Decl) : option Z :=
  match d with
  | ConstInt _ v => Some v
  | ThreadLocalPtr _ => None
  end.

(** The value the loop passes to [Poller::poll]. *)
Definition kPollTimeMs : Z := 10000%Z.

(** ** EventLoop: data members *)

Record EventLoop : Type := mkEventLoop {
  looping_ : bool;
  quit_ : bool;
  callingPendingFunctors_ : bool;
  threadId_ : tid;
  pollReturnTime_ : Timestamp;
  wakeupFd_ : Z;
  activeChannels_ : list Channel;
  pendingFunctors_ : list Functor
}.

Definition set_looping (b : bool) (l : EventLoop) : EventLoop :=
  mkEventLoop b (quit_ l) (callingPendingFunctors_ l) (threadId_ l)
    (pollReturnTime_ l) (wakeupFd_ l) (activeChannels_ l) (pendingFunctors_ l).

Definition set_quit (b : bool) (l : EventLoop) : EventLoop :=
  mkEventLoop (looping_ l) b (callingPendingFunctors_ l) (threadId_ l)
    (pollReturnTime_ l) (wakeupFd_ l) (activeChannels_ l) (pendingFunctors_ l).

Definition set_callingPendingFunctors (b : bool) (l : EventLoop) : EventLoop :=
  mkEventLoop (looping_ l) (quit_ l) b (threadId_ l)
    (pollReturnTime_ l) (wakeupFd_ l) (activeChannels_ l) (pendingFunctors_ l).

Definition set_pollReturnTime (t : Timestamp) (l : EventLoop) : EventLoop :=
  mkEventLoop (looping_ l) (quit_ l) (callingPendingFunctors_ l) (threadId_ l)
    t (wakeupFd_ l) (activeChannels_ l) (pendingFunctors_ l).

Definition set_activeChannels (cs : list Channel) (l : EventLoop) : EventLoop :=
  mkEventLoop (looping_ l) (quit_ l) (callingPendingFunctors_ l) (threadId_ l)
    (pollReturnTime_ l) (wakeupFd_ l) cs (pendingFunctors_ l).

Definition set_pendingFunctors (fs : list Functor) (l : EventLoop) : EventLoop :=
  mkEventLoop (looping_ l) (quit_ l) (callingPendingFunctors_ l) (threadId_ l)
    (pollReturnTime_ l) (wakeupFd_ l) (activeChannels_ l) fs.

(** The member initialisers of [EventLoop::EventLoop] (lines 36-42), for a
    loop built on thread [t] whose [createEventfd()] returned [evtfd]. *)
Definition new_loop (t : tid) (evtfd : Z) : EventLoop :=
  mkEventLoop false false false t 0 evtfd [] [].

(** ** EventLoop: member functions *)

Section Members.
Variable env : Env.

(** Modelled from the spec: [EventLoop::isInLoopThread], declared in
    EventLoop.h, which is not among the sources: "called on the owning
    thread", that is [threadId_ == CurrentThread::tid()]. *)
Definition isInLoopThread (caller : tid) : M EventLoop bool :=
  gets (fun l => (threadId_ l =? caller)%Z).

(** The mutex guarding [pendingFunctors_]: a [std::unique_lock] scope. *)
Definition lock : M EventLoop unit := emit EvLock.
Definition unlock : M EventLoop unit := emit EvUnlock.

(** [EventLoop::wakeup] (lines 174-182). *)
Definition wakeup : M EventLoop unit :=
  let one := 1%Z in
  fd <- gets wakeupFd_ ;;
  n <- sys_write env fd one sizeof_one ;;
  if negb (size_t_of n =? sizeof_one)%Z
  then LOG_ERROR "EventLoop::wakeup() writes %lu bytes instead of 8 \n"
  else ret tt.

(** [EventLoop::handleRead] (lines 69-77). *)
Definition handleRead : M EventLoop unit :=
  fd <- gets wakeupFd_ ;;
  n <- sys_read env fd sizeof_one ;;
  if negb (size_t_of n =? sizeof_one)%Z
  then LOG_ERROR "EventLoop::handleRead() reads %lu bytes instead of 8"
  else ret tt.

(** [EventLoop::quit] (lines 118-127). *)
Definition quit (caller : tid) : M EventLoop unit :=
  modify (set_quit true) ;;
  inLoop <- isInLoopThread caller ;;
  if negb inLoop then wakeup else ret tt.

(** [EventLoop::queueInLoop] (lines 143-170). *)
Definition queueInLoop (caller : tid) (cb : Functor) : M EventLoop unit :=
  lock ;;
  modify (fun l => set_pendingFunctors (pendingFunctors_ l ++ [cb]) l) ;;
  emit (EvPush cb) ;;
  unlock ;;
  inLoop <- isInLoopThread caller ;;
  calling <- gets callingPendingFunctors_ ;;
  if negb inLoop || calling then wakeup else ret tt.

(** [EventLoop::runInLoop] (lines 130-140), given what running [cb()]
    does. *)
Definition runInLoop_with (run_cb : M EventLoop unit)
    (caller : tid) (cb : Functor) : M EventLoop unit :=
  inLoop <- isInLoopThread caller ;;
  if inLoop then emit (EvInline cb) ;; run_cb else queueInLoop caller cb.

(** Running the body of a callback on thread [caller]. *)
Fixpoint call (caller : tid) (f : Functor) : M EventLoop unit :=
  match f with
  | FUser id => emit (EvUser id)
  | FQuit => quit caller
  | FWakeup => wakeup
  | FQueueInLoop cb => queueInLoop caller cb
  | FRunInLoop cb => runInLoop_with (call caller cb) caller cb
  | FSeq a b => call caller a ;; call caller b
  end.

Definition runInLoop (caller : tid) (cb : Functor) : M EventLoop unit :=
  runInLoop_with (call caller cb) caller cb.

(** [EventLoop::doPendingFunctors] (lines 200-216). *)
Definition doPendingFunctors (caller : tid) : M EventLoop unit :=
  modify (set_callingPendingFunctors true) ;;
  lock ;;
  functors <- gets pendingFunctors_ ;;
  modify (set_pendingFunctors []) ;;
  emit (EvSwap functors) ;;
  unlock ;;
  for_each (fun functor => emit (EvFunctor functor) ;; call caller functor)
    functors ;;
  modify (set_callingPendingFunctors false).

(** Modelled from the spec: [Poller::poll], whose source is not given:
    it "fills out_active with every Channel whose revents are
    non-empty", "returns the wall-clock time of the poll return" and
    "only appends".  Which channels are ready, and when, is the
    environment's answer. *)
Definition poll (timeoutMs : Z) : M EventLoop Timestamp :=
  fun w =>
    let '(now, active) := os_poll env (trace w) in
    Ret now
      (mkWorld
         (set_activeChannels (activeChannels_ (state w) ++ active) (state w))
         (trace w ++ [EvPoll timeoutMs now active])).

(** Modelled from the spec: [Channel::handleEvent], whose source is not
    given: it dispatches the channel's callbacks.  A channel here carries
    no revents.  The wake-up channel, when reported, is taken to be
    readable and runs [handleRead]; for another channel the callbacks the
    spec selects by revents (close, error, read, write) are the one
    callback [cb] of the channel.  No channel is tied. *)
Definition handleEvent (caller : tid) (ch : Channel)
    (receiveTime : Timestamp) : M EventLoop unit :=
  emit (EvHandleEvent ch receiveTime) ;;
  match ch with
  | WakeupChannel => handleRead
  | IoChannel _ cb => call caller cb
  end.

(** One pass through the body of the [while] of [EventLoop::loop]
    (lines 90-103). *)
Definition loop_iteration (caller : tid) : M EventLoop unit :=
  modify (set_activeChannels []) ;;
  now <- poll kPollTimeMs ;;
  modify (set_pollReturnTime now) ;;
  active <- gets activeChannels_ ;;
  for_each
    (fun channel =>
       t <- gets pollReturnTime_ ;; handleEvent caller channel t)
    active ;;
  doPendingFunctors caller.

(** [while (!quit_) { ... }], with at most [fuel] evaluations of the
    condition. *)
Fixpoint while_not_quit (fuel : nat) (caller : tid) : M EventLoop unit :=
  match fuel with
  | O => fun w => OutOfFuel w
  | S fuel' =>
      q <- gets quit_ ;;
      emit (EvQuitCheck q) ;;
      if q then ret tt
      else loop_iteration caller ;; while_not_quit fuel' caller
  end.

(** [EventLoop::loop] (lines 81-108). *)
Definition loop (fuel : nat) (caller : tid) : M EventLoop unit :=
  modify (set_looping true) ;;
  modify (set_quit false) ;;
  LOG_INFO "EventLoop %p start looping \n" ;;
  while_not_quit fuel caller ;;
  LOG_INFO "EventLoop %p stop looping. \n" ;;
  modify (set_looping false).
End Members.

(** ** EventLoop: construction and destruction *)

(** The address of an [EventLoop] object. *)
Definition addr : Type := Z.
Bind Scope Z_scope with addr.

(** The process as the constructor and destructor see it: the thread-local
    [t_loopInThisThread] of every thread (a thread without an entry holds
    [nullptr], the initial value), and the [EventLoop] objects that
    exist, by address. *)
Record Process : Type := mkProcess {
  t_loopInThisThread : gmap tid addr;
  loops : gmap addr EventLoop
}.

Section Lifetime.
Variable env : Env.

(** [createEventfd] (lines 22-33). *)
Definition createEventfd : M Process Z :=
  evtfd <- sys_eventfd env ;;
  (if (evtfd <? 0)%Z then LOG_FATAL "eventfd error:%d \n" else ret tt) ;;
  ret evtfd.

(** [EventLoop::EventLoop] (lines 35-58), run by thread [t] for the
    object at [this].  Of the member initialisers only [createEventfd()]
    acts on the process; the constructors of the poller and of the wake-up
    channel, whose sources are not given, are taken to return.  The object
    exists once the constructor has returned. *)
Definition EventLoop_ctor (t : tid) (this : addr) : M Process unit :=
  wakeupFd <- createEventfd ;;
  LOG_DEBUG "EventLoop created %p in thread %d \n" ;;
  current <- gets (fun p => t_loopInThisThread p !! t) ;;
  match current with
  | Some _ => LOG_FATAL "Another EventLoop %p exists in this thread %d \n"
  | None =>
      modify (fun p => mkProcess (<[t := this]> (t_loopInThisThread p)) (loops p))
  end ;;
  emit (EvSetReadCallback wakeupFd) ;;
  emit (EvEnableReading wakeupFd) ;;
  modify (fun p =>
    mkProcess (t_loopInThisThread p) (<[this := new_loop t wakeupFd]> (loops p))).

(** [EventLoop::~EventLoop] (lines 60-66), run by thread [t] on the
    object at [this].  Destroying an object that does not exist is
    undefined in C++; here it leaves the process as it is. *)
Definition EventLoop_dtor (t : tid) (this : addr) : M Process unit :=
  self <- gets (fun p => loops p !! this) ;;
  match self with
  | None => ret tt
  | Some l =>
      emit (EvDisableAll (wakeupFd_ l)) ;;
      emit (EvRemove (wakeupFd_ l)) ;;
      sys_close (wakeupFd_ l) ;;
      modify (fun p =>
        mkProcess (delete t (t_loopInThisThread p)) (delete this (loops p)))
  end.

(** A program's constructions and destructions of loops, in order. *)
Inductive LifetimeOp : Type :=
| Construct (t : tid) (this : addr)
| Destroy (t : tid) (this : addr).

Definition run_op (o : LifetimeOp) : M Process unit :=
  match o with
  | Construct t this => EventLoop_ctor t this
  | Destroy t this => EventLoop_dtor t this
  end.

Definition run_ops (ops : list LifetimeOp) : M Process unit :=
  for_each run_op ops.

(** The thread-affinity discipline of the library: a loop is destroyed
    by its owning thread, and only while it exists. *)
Definition owner_destroys (o : LifetimeOp) (p : Process) : bool :=
  match o with
  | Construct _ _ => true
  | Destroy t this =>
      match loops p !! this with
      | Some l => (threadId_ l =? t)%Z
      | None => false
      end
  end.

Fixpoint disciplined (ops : list LifetimeOp) (w : World Process) : bool :=
  match ops with
  | [] => true
  | o :: rest =>
      owner_destroys o (state w) &&
      match run_op o w with
      | Ret _ w' => disciplined rest w'
      | _ => true
      end
  end.
End Lifetime.

Definition empty_process : World Process := mkWorld (mkProcess ∅ ∅) [].

(** At most one of the loops that exist in [p] belongs to thread [t]. *)
Definition at_most_one_loop (t : tid) (p : Process) : Prop :=
  ∀ a1 a2 l1 l2,
    loops p !! a1 = Some l1 → loops p !! a2 = Some l2 →
    threadId_ l1 = t → threadId_ l2 = t → a1 = a2.

(** Every loop that exists is the loop its owning thread's
    [t_loopInThisThread] points to. *)
Definition sentinel_inv (p : Process) : Prop :=
  ∀ a l, loops p !! a = Some l → t_loopInThisThread p !! threadId_ l = Some a.

(** ** Thread.cc *)

(** The data members [Thread::start] touches. *)
Record Thread : Type := mkThread {
  started_ : bool;
  joined_ : bool;
  tid_ : Z
}.

(** [Thread::Thread] (lines 8-16). *)
Definition new_thread : Thread := mkThread false false 0%Z.

(** Where the caller of [start()] stands: before line 32, after
    [started_ = true], after [sem_init], after the [std::thread] has been
    created, and after [sem_wait] has returned (so [start()] returns). *)
Inductive StarterPc : Type :=
| AtEntry | AfterStarted | AfterSemInit | AfterSpawn | Returned.

(** Where the new thread stands in the lambda of lines 37-43: not created
    yet, before [tid_ = CurrentThread::tid()], before [sem_post], before
    [func_()], and inside or after [func_()]. *)
Inductive WorkerPc : Type :=
| NotCreated | AtAssignTid | AtSemPost | AtFunc | FuncCalled.

Record StartState : Type := mkStartState {
  thread : Thread;
  sem : option Z;
  starter : StarterPc;
  worker : WorkerPc
}.

Definition start_initial : StartState :=
  mkStartState new_thread None AtEntry NotCreated.

Section ThreadStart.
(** What [CurrentThread::tid()] returns in the new thread. *)
Variable worker_tid : Z.

(** One step of the thread that called [start()] when no signal
    intervenes; [None] when it cannot move ([sem_wait] on a zero semaphore
    blocks). *)
Definition starter_step (s : StartState) : option StartState :=
  match starter s with
  | AtEntry =>
      Some (mkStartState
              (mkThread true (joined_ (thread s)) (tid_ (thread s)))
              (sem s) AfterStarted (worker s))
  | AfterStarted =>
      Some (mkStartState (thread s) (Some 0%Z) AfterSemInit (worker s))
  | AfterSemInit =>
      Some (mkStartState (thread s) (sem s) AfterSpawn AtAssignTid)
  | AfterSpawn =>
      match sem s with
      | Some n =>
          if (0 <? n)%Z
          then Some (mkStartState (thread s) (Some (n - 1)%Z) Returned (worker s))
          else None
      | None => None
      end
  | Returned => None
  end.

(** One step of the new thread. *)
Definition worker_step (s : StartState) : option StartState :=
  match worker s with
  | NotCreated => None
  | AtAssignTid =>
      Some (mkStartState
              (mkThread (started_ (thread s)) (joined_ (thread s)) worker_tid)
              (sem s) (starter s) AtSemPost)
  | AtSemPost =>
      match sem s with
      | Some n => Some (mkStartState (thread s) (Some (n + 1)%Z) (starter s) AtFunc)
      | None => None
      end
  | AtFunc => Some (mkStartState (thread s) (sem s) (starter s) FuncCalled)
  | FuncCalled => None
  end.

(** A signal handler runs in the thread that called [start()].  A
    [sem_wait] that is blocked then returns -1 with [EINTR]; line 46
    discards the result of [sem_wait], so [start()] returns, the
    semaphore untouched.  Anywhere else the signal changes nothing. *)
Definition signal_step (s : StartState) : option StartState :=
  match starter s, sem s with
  | AfterSpawn, Some n =>
      if (0 <? n)%Z then None
      else Some (mkStartState (thread s) (sem s) Returned (worker s))
  | _, _ => None
  end.

Inductive Who : Type := Starter | Worker | Signal.

(** The scheduler picks a thread, or delivers a signal to the caller; a
    thread that cannot move stays. *)
Definition sched_step (who : Who) (s : StartState) : StartState :=
  match who with
  | Starter => default s (starter_step s)
  | Worker => default s (worker_step s)
  | Signal => default s (signal_step s)
  end.

Definition run_schedule (sched : list Who) (s : StartState) : StartState :=
  fold_left (fun s who => sched_step who s) sched s.
End ThreadStart.

(** How many times the new thread has posted the semaphore, and how many
    times the caller has taken it. *)
Definition posted (w : WorkerPc) : Z :=
  match w with AtFunc | FuncCalled => 1 | _ => 0 end%Z.

Definition waited (s : StarterPc) : Z :=
  match s with Returned => 1 | _ => 0 end%Z.

(** The new thread has executed [tid_ = CurrentThread::tid()]. *)
Definition tid_assigned (w : WorkerPc) : bool :=
  match w with AtSemPost | AtFunc | FuncCalled => true | _ => false end.

(** What holds in every state the two threads can reach when no
    [sem_wait] was interrupted: the id is in [tid_] once the assignment
    has run, the semaphore exists from [sem_init] on and counts the posts
    not yet taken, and the new thread exists from its creation on. *)
Definition handshake_inv (worker_tid : Z) (s : StartState) : Prop :=
  (tid_assigned (worker s) = true → tid_ (thread s) = worker_tid) ∧
  match sem s with
  | None =>
      worker s = NotCreated ∧ (starter s = AtEntry ∨ starter s = AfterStarted)
  | Some n =>
      (0 ≤ n)%Z ∧
      n = (posted (worker s) - waited (starter s))%Z ∧
      starter s ≠ AtEntry ∧ starter s ≠ AfterStarted ∧
      (worker s = NotCreated ↔ starter s = AfterSemInit)
  end.

(** What holds in every state the two threads can reach, signals
    included: as above, but once the caller has returned the semaphore
    may still hold the post, which an interrupted [sem_wait] did not
    take. *)
Definition start_inv (worker_tid : Z) (s : StartState) : Prop :=
  (tid_assigned (worker s) = true → tid_ (thread s) = worker_tid) ∧
  match sem s with
  | None =>
      worker s = NotCreated ∧ (starter s = AtEntry ∨ starter s = AfterStarted)
  | Some n =>
      (0 ≤ n ≤ posted (worker s))%Z ∧
      (starter s ≠ Returned → n = posted (worker s)) ∧
      starter s ≠ AtEntry ∧ starter s ≠ AfterStarted ∧
      (worker s = NotCreated ↔ starter s = AfterSemInit)
  end.

Definition is_signal (who : Who) : bool :=
  match who with Signal => true | _ => false end.

(** A schedule in which no signal is delivered. *)
Definition signal_free (sched : list Who) : bool :=
  forallb (fun who => negb (is_signal who)) sched.

(** ** Thread.cc: construction and default names *)

(** The value an [int] carries; [std::atomic_int] arithmetic wraps. *)
Definition wrap_int (n : Z) : Z := ((n + 2 ^ 31) mod 2 ^ 32 - 2 ^ 31)%Z.

Definition digit_char (d : Z) : ascii := ascii_of_nat (48 + Z.to_nat d).

(** The decimal digits of a non-negative number, at most [fuel] of them,
    most significant first. *)
Fixpoint digits (fuel : nat) (n : Z) : string :=
  match fuel with
  | O => ""
  | S fuel' =>
      (if (n <? 10)%Z then "" else digits fuel' (n / 10))
      ++ String (digit_char (n mod 10)) ""
  end.

(** What [%d] prints for an [int]: a minus sign for a negative number,
    then its digits; an [int] has at most ten. *)
Definition format_d (n : Z) : string :=
  if (n <? 0)%Z then String "-" (digits 10 (- n)) else digits 10 n.

(** [snprintf(buf, size, "Thread%d", num)] into a zeroed buffer: at most
    [size - 1] characters are stored before the terminating zero. *)
Definition snprintf_Thread (size : nat) (num : Z) : string :=
  substring 0 (size - 1) ("Thread" ++ format_d num).

(** A [Thread] with its name. *)
Record NamedThread : Type := mkNamedThread {
  members : Thread;
  name_ : string
}.

(** [Thread::setDefaultName] (lines 55-64), with the static counter
    [numCreated_] passed through. *)
Definition setDefaultName (th : NamedThread) (numCreated_ : Z) :
    NamedThread * Z :=
  let num := wrap_int (numCreated_ + 1) in
  (if String.eqb (name_ th) ""
   then mkNamedThread (members th) (snprintf_Thread 32 num)
   else th,
   num).

(** [Thread::Thread] (lines 8-16). *)
Definition Thread_ctor (name : string) (numCreated_ : Z) : NamedThread * Z :=
  setDefaultName (mkNamedThread new_thread name) numCreated_.

(** Threads constructed one after the other with the given names. *)
Fixpoint construct_threads (names : list string) (numCreated_ : Z) :
    list NamedThread * Z :=
  match names with
  | [] => ([], numCreated_)
  | name :: rest =>
      let '(th, n1) := Thread_ctor name numCreated_ in
      let '(ths, n2) := construct_threads rest n1 in
      (th :: ths, n2)
  end.

(** The number a string of digits denotes. *)
Fixpoint digits_value (acc : Z) (s : string) : Z :=
  match s with
  | EmptyString => acc
  | String c s' => digits_value (10 * acc + (Z.of_nat (nat_of_ascii c) - 48)) s'
  end.

(** ** Thread.cc: join and destruction *)

(** The [std::thread] object the wrapper owns, as far as the wrapper
    depends on it: it is joinable from its construction until [join()]
    or [detach()] has been called on it.  The C++ library calls
    [std::terminate] when a joinable [std::thread] is destroyed and throws
    [std::system_error] from [join()] or [detach()] on one that is not
    joinable. *)
Inductive StdThread : Type := Joinable | NotJoinable.

(** The wrapper with [thread_], a [std::shared_ptr<std::thread>] of which
    it is the only owner; [None] is the empty pointer. *)
Record ThreadObject : Type := mkThreadObject {
  flags : Thread;
  thread_ : option StdThread
}.

Inductive Outcome (A : Type) : Type :=
| Done (a : A)
| Terminated
| Thrown
| NullDereference.
Arguments Done {A} _.
Arguments Terminated {A}.
Arguments Thrown {A}.
Arguments NullDereference {A}.

(** [Thread::start] (lines 30-47) as its caller sees it when it
    returns: [started_] is set and [thread_] owns the new [std::thread];
    the assignment to [thread_] destroys the [std::thread] it owned
    before.  [tid_seen] is what [tid_] holds at that moment: the new
    thread's id or, when [sem_wait] was interrupted before the new thread
    stored it, the value [tid_] had before. *)
Definition Thread_start (tid_seen : Z) (o : ThreadObject) :
    Outcome ThreadObject :=
  match thread_ o with
  | Some Joinable => Terminated
  | _ =>
      Done (mkThreadObject (mkThread true (joined_ (flags o)) tid_seen)
              (Some Joinable))
  end.

(** [Thread::join] (lines 49-53). *)
Definition Thread_join (o : ThreadObject) : Outcome ThreadObject :=
  let joined := mkThread (started_ (flags o)) true (tid_ (flags o)) in
  match thread_ o with
  | None => NullDereference
  | Some Joinable => Done (mkThreadObject joined (Some NotJoinable))
  | Some NotJoinable => Thrown
  end.

(** [Thread::~Thread] (lines 18-24), followed by the destruction of
    [thread_]. *)
Definition Thread_dtor (o : ThreadObject) : Outcome unit :=
  let after_body :=
    if started_ (flags o) && negb (joined_ (flags o)) then
      match thread_ o with
      | None => NullDereference
      | Some Joinable => Done (Some NotJoinable)
      | Some NotJoinable => Thrown
      end
    else Done (thread_ o) in
  match after_body with
  | Done (Some Joinable) => Terminated
  | Done _ => Done tt
  | Terminated => Terminated
  | Thrown => Thrown
  | NullDereference => NullDereference
  end.

Inductive ThreadOp : Type := OpStart | OpJoin.

(** Calls of [start] and [join] on one wrapper, up to the first that does
    not return. *)
Fixpoint run_thread_ops (worker_tid : Z) (ops : list ThreadOp)
    (o : ThreadObject) : Outcome ThreadObject :=
  match ops with
  | [] => Done o
  | op :: rest =>
      match (match op with
             | OpStart => Thread_start worker_tid o
             | OpJoin => Thread_join o
             end) with
      | Done o' => run_thread_ops worker_tid rest o'
      | failed => failed
      end
  end.

Definition is_start (op : ThreadOp) : bool :=
  match op with OpStart => true | OpJoin => false end.

(** A wrapper just constructed: [thread_] is empty. *)
Definition new_thread_object : ThreadObject := mkThreadObject new_thread None.

(** What holds of a wrapper after calls of [start] and [join] that all
    returned. *)
Definition thread_object_inv (o : ThreadObject) : Prop :=
  match thread_ o with
  | None => started_ (flags o) = false ∧ joined_ (flags o) = false
  | Some Joinable => started_ (flags o) = true
  | Some NotJoinable => started_ (flags o) = true ∧ joined_ (flags o) = true
  end.

(** ** TcpConnection.h *)

(** [enum StateE] (line 64); the enumerators take the values 0 to 3. *)
Inductive StateE : Type :=
| kDisconnected | kConnecting | kConnected | kDisconnecting.

Definition StateE_value (s : StateE) : Z :=
  match s with
  | kDisconnected => 0
  | kConnecting => 1
  | kConnected => 2
  | kDisconnecting => 3
  end%Z.

Global Instance StateE_eq_dec : EqDecision StateE.
Proof. solve_decision. Defined.

(** The scalar data members of a connection; [state_] is a
    [std::atomic_int], [highWaterMark_] a [size_t]. *)
Record TcpConnection : Type := mkTcpConnection {
  state_ : Z;
  reading_ : bool;
  highWaterMark_ : Z
}.

(** [TcpConnection::setState] (line 65). *)
Definition setState (s : StateE) (c : TcpConnection) : TcpConnection :=
  mkTcpConnection (StateE_value s) (reading_ c) (highWaterMark_ c).

(** [TcpConnection::connected] (line 37). *)
Definition connected (c : TcpConnection) : bool :=
  (state_ c =? StateE_value kConnected)%Z.

(** ** Reading histories *)

(** The events by which [loop] and [doPendingFunctors] themselves mark
    their progress; everything a callback does is some other event. *)
Definition is_phase (e : Event) : bool :=
  match e with
  | EvQuitCheck _ | EvPoll _ _ _ | EvHandleEvent _ _ | EvSwap _ | EvFunctor _ => true
  | _ => false
  end.

Definition phases (tr : list Event) : list Event := List.filter is_phase tr.

(** One pass of the loop: what the poller returned and which deferred
    tasks were taken from the queue. *)
Record Iteration : Type := mkIteration {
  it_now : Timestamp;
  it_active : list Channel;
  it_functors : list Functor
}.

Definition iteration_phases (it : Iteration) : list Event :=
  [EvQuitCheck false; EvPoll kPollTimeMs (it_now it) (it_active it)]
  ++ map (fun ch => EvHandleEvent ch (it_now it)) (it_active it)
  ++ [EvSwap (it_functors it)]
  ++ map EvFunctor (it_functors it).

Definition is_write (e : Event) : bool :=
  match e with EvSysWrite _ _ _ _ => true | _ => false end.

(** How many times the wake-up descriptor was written. *)
Definition wakeup_writes (tr : list Event) : nat :=
  length (List.filter is_write tr).

Definition is_poll (e : Event) : bool :=
  match e with EvPoll _ _ _ => true | _ => false end.

(** How many times the poller was asked. *)
Definition polls (tr : list Event) : nat := length (List.filter is_poll tr).

(** Accesses to [pendingFunctors_] happen with [mutex_] held: a scan of
    the history with the state of the mutex. *)
Fixpoint lock_discipline (held : bool) (tr : list Event) : bool :=
  match tr with
  | [] => negb held
  | EvLock :: tr' => negb held && lock_discipline true tr'
  | EvUnlock :: tr' => held && lock_discipline false tr'
  | EvPush _ :: tr' => held && lock_discipline held tr'
  | EvSwap _ :: tr' => held && lock_discipline held tr'
  | _ :: tr' => lock_discipline held tr'
  end.

(** What a callback leaves untouched: every member but [quit_] and
    [pendingFunctors_]. *)
Definition callback_frame (l l' : EventLoop) : Prop :=
  looping_ l' = looping_ l ∧
  callingPendingFunctors_ l' = callingPendingFunctors_ l ∧
  threadId_ l' = threadId_ l ∧
  pollReturnTime_ l' = pollReturnTime_ l ∧
  wakeupFd_ l' = wakeupFd_ l ∧
  activeChannels_ l' = activeChannels_ l.

(** A computation that returns, adds no phase event and respects the
    frame. *)
Definition quiet (m : M EventLoop unit) : Prop :=
  ∀ w, ∃ w' evs,
    m w = Ret tt w' ∧ trace w' = trace w ++ evs ∧ phases evs = [] ∧
    callback_frame (state w) (state w').


(** ** What a callback does to the loop, read off its text *)

(** The tasks a callback appends to [pendingFunctors_], in order, when it
    runs on the owning thread ([inLoop]) or on another one. *)
Fixpoint enqueues (inLoop : bool) (f : Functor) : list Functor :=
  match f with
  | FUser _ | FQuit | FWakeup => []
  | FQueueInLoop cb => [cb]
  | FRunInLoop cb => if inLoop then enqueues inLoop cb else [cb]
  | FSeq a b => enqueues inLoop a ++ enqueues inLoop b
  end.

(** Whether running the callback calls [quit]. *)
Fixpoint calls_quit (inLoop : bool) (f : Functor) : bool :=
  match f with
  | FUser _ | FWakeup | FQueueInLoop _ => false
  | FQuit => true
  | FRunInLoop cb => inLoop && calls_quit inLoop cb
  | FSeq a b => calls_quit inLoop a || calls_quit inLoop b
  end.

(** How often running the callback calls [wakeup], on or off the owning
    thread and in or out of the deferred-task phase. *)
Fixpoint wakeups_of (inLoop calling : bool) (f : Functor) : nat :=
  match f with
  | FUser _ => 0
  | FQuit => if inLoop then 0 else 1
  | FWakeup => 1
  | FQueueInLoop _ => if negb inLoop || calling then 1 else 0
  | FRunInLoop cb => if inLoop then wakeups_of inLoop calling cb else 1
  | FSeq a b => wakeups_of inLoop calling a + wakeups_of inLoop calling b
  end.

Definition channel_enqueues (inLoop : bool) (ch : Channel) : list Functor :=
  match ch with
  | WakeupChannel => []
  | IoChannel _ cb => enqueues inLoop cb
  end.

Definition channel_calls_quit (inLoop : bool) (ch : Channel) : bool :=
  match ch with
  | WakeupChannel => false
  | IoChannel _ cb => calls_quit inLoop cb
  end.

Definition channel_wakeups (inLoop calling : bool) (ch : Channel) : nat :=
  match ch with
  | WakeupChannel => 0
  | IoChannel _ cb => wakeups_of inLoop calling cb
  end.

Definition is_wakeup_channel (ch : Channel) : bool :=
  match ch with WakeupChannel => true | IoChannel _ _ => false end.

Definition sum_of {A} (f : A → nat) (l : list A) : nat :=
  fold_right (fun x n => f x + n) 0 l.

Definition is_read (e : Event) : bool :=
  match e with EvSysRead _ _ _ => true | _ => false end.

(** How many times the wake-up descriptor was read. *)
Definition reads (tr : list Event) : nat := length (List.filter is_read tr).

(** The mutex along a history: [Some held] at its end, [None] when the
    history locks a held mutex, unlocks a free one, touches the queue
    with the mutex free, or does anything but touch the queue and unlock
    while holding it. *)
Fixpoint mutex_after (held : bool) (tr : list Event) : option bool :=
  match tr with
  | [] => Some held
  | e :: tr' =>
      if held then
        match e with
        | EvPush _ | EvSwap _ => mutex_after true tr'
        | EvUnlock => mutex_after false tr'
        | _ => None
        end
      else
        match e with
        | EvLock => mutex_after true tr'
        | EvUnlock | EvPush _ | EvSwap _ => None
        | _ => mutex_after false tr'
        end
  end.

(** What a computation did: the events it added, the members it left
    alone, the tasks it queued, whether it called [quit], and how often
    it wrote and read the wake-up descriptor; the mutex is free before
    and after. *)
Definition effect (enq : list Functor) (q : bool) (nw nr : nat)
    (w w' : World EventLoop) (evs : list Event) : Prop :=
  trace w' = trace w ++ evs ∧
  callback_frame (state w) (state w') ∧
  pendingFunctors_ (state w') = pendingFunctors_ (state w) ++ enq ∧
  quit_ (state w') = quit_ (state w) || q ∧
  wakeup_writes evs = nw ∧
  reads evs = nr ∧
  mutex_after false evs = Some false.

(** Where a callback runs: on the owning thread or not, in the
    deferred-task phase or not. *)
Definition runs_as (caller : tid) (inLoop calling : bool) (l : EventLoop) : Prop :=
  (threadId_ l =? caller)%Z = inLoop ∧ callingPendingFunctors_ l = calling.

(** The user work a callback performs itself, in order: what it runs
    inline, not what it queues. *)
Fixpoint work_of (inLoop : bool) (f : Functor) : list nat :=
  match f with
  | FUser id => [id]
  | FQuit | FWakeup | FQueueInLoop _ => []
  | FRunInLoop cb => if inLoop then work_of inLoop cb else []
  | FSeq a b => work_of inLoop a ++ work_of inLoop b
  end.

Definition channel_work (inLoop : bool) (ch : Channel) : list nat :=
  match ch with
  | WakeupChannel => []
  | IoChannel _ cb => work_of inLoop cb
  end.

Definition user_id (e : Event) : list nat :=
  match e with EvUser id => [id] | _ => [] end.

(** The user work recorded in a history, in order. *)
Definition user_work (tr : list Event) : list nat := flat_map user_id tr.

(** A pass of the loop, by what the poller returned and which tasks were
    taken: the user work done in it (the channel callbacks' first, then
    the tasks'), whether [quit] was called in it, and the tasks left in
    the queue at its end. *)
Definition pass_work (inLoop : bool) (it : Iteration) : list nat :=
  flat_map (channel_work inLoop) (it_active it)
  ++ flat_map (work_of inLoop) (it_functors it).

Definition pass_calls_quit (inLoop : bool) (it : Iteration) : bool :=
  existsb (channel_calls_quit inLoop) (it_active it)
  || existsb (calls_quit inLoop) (it_functors it).

Definition queue_left (inLoop : bool) (it : Iteration) : list Functor :=
  flat_map (enqueues inLoop) (it_functors it).

(** Consecutive passes starting with the queue [pending]: each pass takes
    the tasks that were queued when it began followed by those its
    channel callbacks queued, and leaves what the tasks it ran queued;
    [quit] is called in no pass but possibly the last, where
    [last_quits] tells. *)
Fixpoint passes_chain (inLoop : bool) (pending : list Functor)
    (last_quits : bool) (its : list Iteration) : Prop :=
  match its with
  | [] => True
  | it :: rest =>
      it_functors it =
        pending ++ flat_map (channel_enqueues inLoop) (it_active it) ∧
      pass_calls_quit inLoop it =
        match rest with [] => last_quits | _ :: _ => false end ∧
      passes_chain inLoop (queue_left inLoop it) last_quits rest
  end.

(** The queue after these passes. *)
Fixpoint queue_after (inLoop : bool) (pending : list Functor)
    (its : list Iteration) : list Functor :=
  match its with
  | [] => pending
  | it :: rest => queue_after inLoop (queue_left inLoop it) rest
  end.

(** The steps of a history: the phases of the loop and the user work,
    in the order they happened. *)
Definition is_user (e : Event) : bool :=
  match e with EvUser _ => true | _ => false end.

Definition is_step (e : Event) : bool := is_phase e || is_user e.

Definition steps (tr : list Event) : list Event := List.filter is_step tr.

(** The steps of [handleEvent] on one channel and of the invocation of
    one task: the marker, then the user work of the callback. *)
Definition channel_steps (inLoop : bool) (now : Timestamp) (ch : Channel) :
    list Event :=
  EvHandleEvent ch now :: map EvUser (channel_work inLoop ch).

Definition functor_steps (inLoop : bool) (f : Functor) : list Event :=
  EvFunctor f :: map EvUser (work_of inLoop f).

(** The steps of one pass: the loop head, the poll, each channel with the
    work of its callback, the swap of the queue, each task taken with its
    work. *)
Definition pass_steps (inLoop : bool) (it : Iteration) : list Event :=
  [EvQuitCheck false; EvPoll kPollTimeMs (it_now it) (it_active it)]
  ++ flat_map (channel_steps inLoop (it_now it)) (it_active it)
  ++ EvSwap (it_functors it)
     :: flat_map (functor_steps inLoop) (it_functors it).

(** A computation's result, the members it left alone and the steps
    among the events it added. *)
Definition works (m : M EventLoop unit) (w : World EventLoop)
    (st : list Event) : Prop :=
  ∃ w' evs,
    m w = Ret tt w' ∧ trace w' = trace w ++ evs ∧
    callback_frame (state w) (state w') ∧ steps evs = st.

(** Calls of [queueInLoop] one after the other, each by its own thread. *)
Definition queue_all (env : Env) (requests : list (tid * Functor)) :
    M EventLoop unit :=
  for_each (fun r => queueInLoop env r.1 r.2) requests.

(** ** Statements of the specification that the code does not satisfy *)

(** "Invariant violation (fatal: ... wake-up write or read short)". *)
Definition short_transfer_is_fatal : Prop :=
  ∀ env (w : World EventLoop),
    (ssize_t_of (os_write env (trace w)) ≠ 8%Z → ∃ w', wakeup env w = Abort w') ∧
    (ssize_t_of (os_read env (trace w)) ≠ 8%Z → ∃ w', handleRead env w = Abort w').


(** "For all loops L, at most one EventLoop exists in L.owner at any
    instant": after every history of constructions and destructions that
    the process survives. *)
Definition one_loop_per_thread_in_every_history : Prop :=
  ∀ env (ops : list LifetimeOp) (w' : World Process),
    run_ops env ops empty_process = Ret tt w' →
    ∀ t, at_most_one_loop t (state w').

(** "start() returns to its caller only after that id has been
    assigned": in every state the caller and the new thread can reach,
    under every schedule. *)
Definition start_returns_only_after_tid_assigned : Prop :=
  ∀ (worker_tid : Z) (sched : list Who),
    let s := run_schedule worker_tid sched start_initial in
    starter s = Returned →
    tid_assigned (worker s) = true ∧ tid_ (thread s) = worker_tid.

(** "Implementations must define it once". *)
Definition defined_exactly_once (name : string) (ds : list Decl) : Prop :=
  length (definitions_of name ds) = 1.

(** ** Scenarios *)

(** A kernel that fails every transfer on the wake-up descriptor with -1
    and never reports a ready channel. *)
Definition env_short : Env :=
  mkEnv (fun _ => 3%Z) (fun _ => (-1)%Z) (fun _ => (-1)%Z) (fun _ => (0%Z, [])).

(** A kernel that transfers 8 bytes every time; the poller reports the
    wake-up channel and a channel of descriptor 5 whose callback queues a
    task and then calls [quit]. *)
Definition quitting_channel : Channel :=
  IoChannel 5 (FSeq (FQueueInLoop (FUser 7)) FQuit).

Definition env_quit : Env :=
  mkEnv (fun _ => 3%Z) (fun _ => 8%Z) (fun _ => 8%Z)
    (fun _ => (1000%Z, [WakeupChannel; quitting_channel])).

(** A loop just constructed by thread 1 with wake-up descriptor 3. *)
Definition loop0 : World EventLoop := mkWorld (new_loop 1 3) [].

(** A loop of thread 1 whose queue holds one task, which itself queues a
    task. *)
Definition loop_with_queueing_task : World EventLoop :=
  mkWorld (set_pendingFunctors [FQueueInLoop (FUser 1)] (new_loop 1 3)) [].

(** Every [EvPoll] entry of [evs], a continuation of [history], carries
    what the poller answered at that point. *)
Fixpoint poll_answers (env : Env) (history evs : list Event) : Prop :=
  match evs with
  | [] => True
  | e :: rest =>
      match e with
      | EvPoll _ now active => os_poll env history = (now, active)
      | _ => True
      end ∧ poll_answers env (history ++ [e]) rest
  end.


(** A process in which thread 1 has built the loop at address 100. *)
Definition one_loop_process : World Process :=
  mkWorld (mkProcess {[ 1%Z := 100%Z ]} {[ 100%Z := new_loop 1 3 ]}) [].

(** Threads 1 and 2 build their loops, thread 1 destroys its loop and
    builds another. *)
Definition lifetime_history : list LifetimeOp :=
  [Construct 1 100; Construct 2 200; Destroy 1 100; Construct 1 300].

(** Thread 2 destroys the loop of thread 1 and then builds a second loop
    of its own. *)
Definition foreign_destroy_history : list LifetimeOp :=
  [Construct 1 100; Construct 2 200; Destroy 2 100; Construct 2 300].

(** The caller runs up to [sem_wait], the new thread stores its id and
    posts, the caller returns, the new thread calls the user function. *)
Definition handshake_schedule : list Who :=
  [Starter; Starter; Starter; Worker; Worker; Starter; Worker].

(** The caller runs up to [sem_wait] and blocks; a signal handler runs
    before the new thread has taken a step. *)
Definition interrupted_schedule : list Who :=
  [Starter; Starter; Starter; Signal].

(** * Properties *)

(** ** Integer conversions *)

Lemma ssize_t_of_range (n : Z) :
  (- 2 ^ 63 ≤ ssize_t_of n < 2 ^ 63)%Z.
Proof.
  unfold ssize_t_of.
  pose proof (Z.mod_pos_bound (n + 2 ^ 63) (2 ^ 64)) as Hm.
  lia.
Qed.

(** On an [ssize_t], the unsigned comparison [n != sizeof one] is the
    comparison of the signed value with 8: a negative result wraps to a
    value above [2 ^ 63], never to 8. *)
Lemma short_transfer_test (n : Z) :
  (- 2 ^ 63 ≤ n < 2 ^ 63)%Z →
  negb (size_t_of n =? sizeof_one)%Z = negb (n =? 8)%Z.
Proof.
  intros Hn. unfold size_t_of, sizeof_one. f_equal.
  destruct (Z.eqb_spec n 8) as [-> | Hne].
  - reflexivity.
  - apply Z.eqb_neq. intros Heq.
    destruct (Z_lt_le_dec n 0) as [Hneg | Hpos].
    + replace n with ((n + 2 ^ 64) + (-1) * 2 ^ 64)%Z in Heq by ring.
      rewrite Z.mod_add in Heq by lia.
      rewrite Z.mod_small in Heq by lia. lia.
    + rewrite Z.mod_small in Heq by lia. contradiction.
Qed.

Lemma last_two {A} (l : list A) (a b : A) : last (l ++ [a; b]) = Some b.
Proof.
  change [a; b] with ([a] ++ [b]).
  rewrite (assoc_L (++)). apply last_snoc.
Qed.

(** ** The wake-up descriptor *)

Section WakeupProperties.
Variable env : Env.

Lemma wakeup_unfold (w : World EventLoop) :
  let fd := wakeupFd_ (state w) in
  let n := ssize_t_of (os_write env (trace w)) in
  wakeup env w =
    Ret tt
      (mkWorld (state w)
         (trace w ++
          EvSysWrite fd 1 8 n ::
          (if (n =? 8)%Z then []
           else [EvLog LvError
                   "EventLoop::wakeup() writes %lu bytes instead of 8 \n"]))).
Proof.
  intros fd n. unfold wakeup, bind, gets, sys_write. cbn.
  fold n. rewrite (short_transfer_test n) by apply ssize_t_of_range.
  destruct (n =? 8)%Z; cbn.
  - reflexivity.
  - unfold LOG_ERROR, emit. cbn. rewrite <- List.app_assoc. reflexivity.
Qed.

Lemma handleRead_unfold (w : World EventLoop) :
  let fd := wakeupFd_ (state w) in
  let n := ssize_t_of (os_read env (trace w)) in
  handleRead env w =
    Ret tt
      (mkWorld (state w)
         (trace w ++
          EvSysRead fd 8 n ::
          (if (n =? 8)%Z then []
           else [EvLog LvError
                   "EventLoop::handleRead() reads %lu bytes instead of 8"]))).
Proof.
  intros fd n. unfold handleRead, bind, gets, sys_read. cbn.
  fold n. rewrite (short_transfer_test n) by apply ssize_t_of_range.
  destruct (n =? 8)%Z; cbn.
  - reflexivity.
  - unfold LOG_ERROR, emit. cbn. rewrite <- List.app_assoc. reflexivity.
Qed.

(** C6: [wakeup] asks the kernel to write 8 bytes holding the value 1 to
    the wake-up descriptor; when the kernel reports any other count than
    8 it writes one error-level log line, and in either case it returns
    normally and leaves the loop's members as they were.  [handleRead]
    does the same with a read of 8 bytes. *)
Theorem wakeup_writes_8_bytes_and_only_logs (w : World EventLoop) :
  let fd := wakeupFd_ (state w) in
  let written := ssize_t_of (os_write env (trace w)) in
  let got := ssize_t_of (os_read env (trace w)) in
  wakeup env w =
    Ret tt
      (mkWorld (state w)
         (trace w ++
          EvSysWrite fd 1 8 written ::
          (if (written =? 8)%Z then []
           else [EvLog LvError
                   "EventLoop::wakeup() writes %lu bytes instead of 8 \n"])))
  ∧
  handleRead env w =
    Ret tt
      (mkWorld (state w)
         (trace w ++
          EvSysRead fd 8 got ::
          (if (got =? 8)%Z then []
           else [EvLog LvError
                   "EventLoop::handleRead() reads %lu bytes instead of 8"]))).
Proof.
  split; [apply wakeup_unfold | apply handleRead_unfold].
Qed.

(** C5, as the code has it: a short write in [wakeup] or a short read in
    [handleRead] does not end the process.  Both functions return
    normally with the loop's members unchanged, and a transfer of
    another size than 8 bytes leaves an error-level line as the last
    entry of the log. *)
Theorem short_transfer_is_logged_not_fatal (w : World EventLoop) :
  (∃ w', wakeup env w = Ret tt w' ∧ state w' = state w ∧
     (ssize_t_of (os_write env (trace w)) ≠ 8%Z →
      last (trace w') =
        Some (EvLog LvError
                "EventLoop::wakeup() writes %lu bytes instead of 8 \n")))
  ∧
  (∃ w', handleRead env w = Ret tt w' ∧ state w' = state w ∧
     (ssize_t_of (os_read env (trace w)) ≠ 8%Z →
      last (trace w') =
        Some (EvLog LvError
                "EventLoop::handleRead() reads %lu bytes instead of 8"))).
Proof.
  split.
  - eexists. split; [apply wakeup_unfold |]. split; [reflexivity |].
    intros Hshort. cbn.
    apply Z.eqb_neq in Hshort. rewrite Hshort.
    apply last_two.
  - eexists. split; [apply handleRead_unfold |]. split; [reflexivity |].
    intros Hshort. cbn.
    apply Z.eqb_neq in Hshort. rewrite Hshort.
    apply last_two.
Qed.
End WakeupProperties.

Lemma short_transfer_is_logged_not_fatal_witness :
  ssize_t_of (os_write env_short (trace loop0)) ≠ 8%Z ∧
  ssize_t_of (os_read env_short (trace loop0)) ≠ 8%Z ∧
  (∃ w', wakeup env_short loop0 = Ret tt w' ∧
     last (trace w') =
       Some (EvLog LvError
               "EventLoop::wakeup() writes %lu bytes instead of 8 \n")) ∧
  (∃ w', handleRead env_short loop0 = Ret tt w' ∧
     last (trace w') =
       Some (EvLog LvError
               "EventLoop::handleRead() reads %lu bytes instead of 8")).
Proof.
  assert (Hw : ssize_t_of (os_write env_short (trace loop0)) ≠ 8%Z)
    by (vm_compute; discriminate).
  assert (Hr : ssize_t_of (os_read env_short (trace loop0)) ≠ 8%Z)
    by (vm_compute; discriminate).
  destruct (short_transfer_is_logged_not_fatal env_short loop0)
    as [(w1 & Hw1 & _ & Hl1) (w2 & Hw2 & _ & Hl2)].
  split; [exact Hw |]. split; [exact Hr |].
  split; [exists w1 | exists w2]; auto.
Defined.

(** C5, as stated, fails: with a kernel that answers -1 to the write (and
    to the read), [wakeup] and [handleRead] log and return. *)
Lemma short_write_returns_normally :
  wakeup env_short loop0 =
    Ret tt
      (mkWorld (new_loop 1 3)
         [EvSysWrite 3 1 8 (-1);
          EvLog LvError "EventLoop::wakeup() writes %lu bytes instead of 8 \n"])
  ∧ ¬ short_transfer_is_fatal.
Proof.
  split; [reflexivity |].
  intros Hfatal.
  destruct (Hfatal env_short loop0) as [Hwrite _].
  destruct Hwrite as [w' Hw']; [vm_compute; discriminate |].
  vm_compute in Hw'. discriminate Hw'.
Qed.

(** ** The poll timeout *)

(** C8: EventLoop.cc does not define the poll timeout once: the
    definition [const int kPollTimeMs = 10000] occurs twice at namespace
    scope (lines 15 and 19).  Both occurrences give the value 10000, which
    is the timeout [loop] passes to the poller. *)
Theorem kPollTimeMs_defined_twice :
  definitions_of "kPollTimeMs" EventLoop_cc_decls =
    [ConstInt "kPollTimeMs" 10000; ConstInt "kPollTimeMs" 10000]
  ∧ length (definitions_of "kPollTimeMs" EventLoop_cc_decls) = 2
  ∧ ¬ defined_exactly_once "kPollTimeMs" EventLoop_cc_decls
  ∧ map const_value (definitions_of "kPollTimeMs" EventLoop_cc_decls) =
      [Some kPollTimeMs; Some kPollTimeMs]
  ∧ kPollTimeMs = 10000%Z.
Proof.
  repeat split; try reflexivity.
  unfold defined_exactly_once. cbn. discriminate.
Qed.

(** ** TcpConnection *)

(** C10: [connected()] is true exactly in state [kConnected]: for each of
    the four values of [StateE] a connection put in that state answers
    [true] for [kConnected] and [false] for [kDisconnected], [kConnecting]
    and [kDisconnecting]; in general it compares [state_] with the value
    of [kConnected]. *)
Theorem connected_exactly_when_kConnected (c : TcpConnection) :
  (∀ s : StateE, connected (setState s c) = bool_decide (s = kConnected))
  ∧ connected (setState kConnected c) = true
  ∧ connected (setState kDisconnected c) = false
  ∧ connected (setState kConnecting c) = false
  ∧ connected (setState kDisconnecting c) = false
  ∧ connected c = bool_decide (state_ c = StateE_value kConnected)
  ∧ (∀ s : StateE, s ∈ [kDisconnected; kConnecting; kConnected; kDisconnecting]).
Proof.
  split; [intros s; destruct s; reflexivity |].
  repeat (split; [reflexivity |]).
  split.
  - unfold connected. destruct (Z.eqb_spec (state_ c) (StateE_value kConnected)).
    + rewrite bool_decide_eq_true_2; auto.
    + rewrite bool_decide_eq_false_2; auto.
  - intros s. destruct s; set_solver.
Qed.

(** ** Histories *)

Lemma phases_app (a b : list Event) : phases (a ++ b) = phases a ++ phases b.
Proof. apply List.filter_app. Qed.

Lemma wakeup_writes_app (a b : list Event) :
  wakeup_writes (a ++ b) = wakeup_writes a + wakeup_writes b.
Proof. unfold wakeup_writes. rewrite List.filter_app. apply length_app. Qed.

Lemma polls_app (a b : list Event) : polls (a ++ b) = polls a + polls b.
Proof. unfold polls. rewrite List.filter_app. apply length_app. Qed.

Lemma callback_frame_refl (l : EventLoop) : callback_frame l l.
Proof. repeat split. Qed.

Lemma callback_frame_trans (l1 l2 l3 : EventLoop) :
  callback_frame l1 l2 → callback_frame l2 l3 → callback_frame l1 l3.
Proof.
  unfold callback_frame.
  intros (?&?&?&?&?&?) (?&?&?&?&?&?). repeat split; congruence.
Qed.

(** ** Callbacks are quiet *)

Lemma quiet_emit (e : Event) : is_phase e = false → quiet (emit e).
Proof.
  intros He w. eexists _, [e]. split; [reflexivity |].
  split; [reflexivity |]. split; [| apply callback_frame_refl].
  unfold phases. cbn. rewrite He. reflexivity.
Qed.

Lemma quiet_seq (m k : M EventLoop unit) : quiet m → quiet k → quiet (m ;; k).
Proof.
  intros Hm Hk w.
  destruct (Hm w) as (w1 & evs1 & Hrun1 & Htr1 & Hph1 & Hfr1).
  destruct (Hk w1) as (w2 & evs2 & Hrun2 & Htr2 & Hph2 & Hfr2).
  exists w2, (evs1 ++ evs2). unfold bind. rewrite Hrun1.
  split; [exact Hrun2 |].
  split; [rewrite Htr2, Htr1; symmetry; apply (assoc_L (++)) |].
  split; [rewrite phases_app, Hph1, Hph2; reflexivity |].
  eapply callback_frame_trans; eassumption.
Qed.

Section CallbackProperties.
Variable env : Env.

Lemma quiet_wakeup : quiet (wakeup env).
Proof.
  intros w. eexists _, _. split; [apply wakeup_unfold |].
  split; [reflexivity |]. split; [| apply callback_frame_refl].
  cbn. destruct (_ =? 8)%Z; reflexivity.
Qed.

Lemma quiet_handleRead : quiet (handleRead env).
Proof.
  intros w. eexists _, _. split; [apply handleRead_unfold |].
  split; [reflexivity |]. split; [| apply callback_frame_refl].
  cbn. destruct (_ =? 8)%Z; reflexivity.
Qed.

Lemma quit_unfold (caller : tid) (w : World EventLoop) :
  quit env caller w =
    let w1 := mkWorld (set_quit true (state w)) (trace w) in
    if (threadId_ (state w) =? caller)%Z then Ret tt w1 else wakeup env w1.
Proof.
  unfold quit, bind, modify, isInLoopThread, gets. cbn.
  destruct (threadId_ (state w) =? caller)%Z; reflexivity.
Qed.

Lemma quiet_quit (caller : tid) : quiet (quit env caller).
Proof.
  intros w. rewrite quit_unfold. cbn.
  destruct (threadId_ (state w) =? caller)%Z.
  - eexists _, []. split; [reflexivity |]. cbn. rewrite app_nil_r.
    repeat split.
  - destruct (quiet_wakeup (mkWorld (set_quit true (state w)) (trace w)))
      as (w' & evs & Hrun & Htr & Hph & Hfr).
    exists w', evs. repeat split; try tauto; apply Hfr.
Qed.

(** [queueInLoop], step by step. *)
Lemma queueInLoop_unfold (caller : tid) (cb : Functor) (w : World EventLoop) :
  let l := state w in
  let wake := negb (threadId_ l =? caller)%Z || callingPendingFunctors_ l in
  let queued :=
    mkWorld (set_pendingFunctors (pendingFunctors_ l ++ [cb]) l)
      (trace w ++ [EvLock; EvPush cb; EvUnlock]) in
  queueInLoop env caller cb w =
    if wake then wakeup env queued else Ret tt queued.
Proof.
  intros l wake queued.
  unfold queueInLoop, bind, modify, isInLoopThread, gets, lock, unlock, emit.
  cbn -[wakeup]. rewrite <- !(assoc_L (++)). cbn -[wakeup].
  fold l. fold wake. destruct wake; reflexivity.
Qed.

Lemma quiet_queueInLoop (caller : tid) (cb : Functor) :
  quiet (queueInLoop env caller cb).
Proof.
  intros w. rewrite queueInLoop_unfold. cbv zeta.
  destruct (negb _ || _).
  - match goal with |- context [wakeup env ?q] =>
      destruct (quiet_wakeup q) as (w' & evs & Hrun & Htr & Hph & Hfr) end.
    exists w', ([EvLock; EvPush cb; EvUnlock] ++ evs).
    split; [exact Hrun |].
    split; [rewrite Htr; cbn [trace]; rewrite <- (assoc_L (++)); reflexivity |].
    split; [rewrite phases_app, Hph; reflexivity |].
    repeat split; apply Hfr.
  - eexists _, _. split; [reflexivity |]. repeat split.
Qed.

Lemma runInLoop_with_unfold (run_cb : M EventLoop unit)
    (caller : tid) (cb : Functor) (w : World EventLoop) :
  runInLoop_with env run_cb caller cb w =
    if (threadId_ (state w) =? caller)%Z
    then run_cb (mkWorld (state w) (trace w ++ [EvInline cb]))
    else queueInLoop env caller cb w.
Proof.
  unfold runInLoop_with, bind, isInLoopThread, gets. cbn -[queueInLoop].
  destruct (threadId_ (state w) =? caller)%Z; reflexivity.
Qed.

Lemma quiet_runInLoop_with (run_cb : M EventLoop unit)
    (caller : tid) (cb : Functor) :
  quiet run_cb → quiet (runInLoop_with env run_cb caller cb).
Proof.
  intros Hcb w. rewrite runInLoop_with_unfold.
  destruct (threadId_ (state w) =? caller)%Z.
  - destruct (Hcb (mkWorld (state w) (trace w ++ [EvInline cb])))
      as (w' & evs & Hrun & Htr & Hph & Hfr).
    exists w', (EvInline cb :: evs). split; [exact Hrun |].
    split; [rewrite Htr; cbn; rewrite <- (assoc_L (++)); reflexivity |].
    split; [exact Hph | exact Hfr].
  - apply quiet_queueInLoop.
Qed.

(** Whatever a callback does, it returns, and it touches only [quit_]
    and [pendingFunctors_]. *)
Lemma quiet_call (caller : tid) (f : Functor) : quiet (call env caller f).
Proof.
  induction f as [id | | | cb _ | cb IH | a IHa b IHb]; cbn [call].
  - apply quiet_emit. reflexivity.
  - apply quiet_quit.
  - apply quiet_wakeup.
  - apply quiet_queueInLoop.
  - apply quiet_runInLoop_with. exact IH.
  - apply quiet_seq; assumption.
Qed.

Lemma quiet_handleEvent_body (caller : tid) (ch : Channel) :
  quiet (match ch with
         | WakeupChannel => handleRead env
         | IoChannel _ cb => call env caller cb
         end).
Proof. destruct ch; [apply quiet_handleRead | apply quiet_call]. Qed.
End CallbackProperties.

(** ** Deferred tasks *)

Section QueueProperties.
Variable env : Env.

Lemma run_functors_spec (caller : tid) (fs : list Functor) :
  ∀ w, ∃ w' evs,
    for_each (fun functor => emit (EvFunctor functor) ;; call env caller functor)
      fs w = Ret tt w' ∧
    trace w' = trace w ++ evs ∧
    phases evs = map EvFunctor fs ∧
    callback_frame (state w) (state w').
Proof.
  induction fs as [| f fs IH]; intros w; cbn [for_each].
  - exists w, []. rewrite app_nil_r. auto using callback_frame_refl.
  - unfold bind at 1 2. cbn [emit].
    destruct (quiet_call env caller f
                (mkWorld (state w) (trace w ++ [EvFunctor f])))
      as (w1 & evs1 & Hrun1 & Htr1 & Hph1 & Hfr1).
    rewrite Hrun1.
    destruct (IH w1) as (w2 & evs2 & Hrun2 & Htr2 & Hph2 & Hfr2).
    exists w2, (EvFunctor f :: evs1 ++ evs2).
    split; [exact Hrun2 |].
    split.
    { rewrite Htr2, Htr1. cbn [trace].
      rewrite <- !(assoc_L (++)). reflexivity. }
    split.
    { change (phases (EvFunctor f :: evs1 ++ evs2))
        with (EvFunctor f :: phases (evs1 ++ evs2)).
      rewrite phases_app, Hph1, Hph2. reflexivity. }
    eapply callback_frame_trans; [exact Hfr1 | exact Hfr2].
Qed.

(** [doPendingFunctors] takes the whole queue under the mutex, runs the
    tasks it took in queue order and ends with the flag cleared. *)
Lemma doPendingFunctors_spec (caller : tid) (w : World EventLoop) :
  ∃ w' evs,
    doPendingFunctors env caller w = Ret tt w' ∧
    trace w' = trace w ++ evs ∧
    phases evs =
      EvSwap (pendingFunctors_ (state w))
      :: map EvFunctor (pendingFunctors_ (state w)) ∧
    callingPendingFunctors_ (state w') = false ∧
    looping_ (state w') = looping_ (state w) ∧
    threadId_ (state w') = threadId_ (state w) ∧
    wakeupFd_ (state w') = wakeupFd_ (state w) ∧
    pollReturnTime_ (state w') = pollReturnTime_ (state w).
Proof.
  unfold doPendingFunctors.
  set (run := for_each _).
  unfold bind, modify, gets, lock, unlock, emit.
  cbn [state trace].
  set (fs := pendingFunctors_ (set_callingPendingFunctors true (state w))).
  subst run.
  match goal with |- context [for_each _ fs ?w0] =>
    destruct (run_functors_spec caller fs w0)
      as (w1 & evs1 & Hrun1 & Htr1 & Hph1 & Hfr1) end.
  rewrite Hrun1.
  exists (mkWorld (set_callingPendingFunctors false (state w1)) (trace w1)),
    ([EvLock; EvSwap fs; EvUnlock] ++ evs1).
  split; [reflexivity |].
  split.
  { cbn [trace]. rewrite Htr1. cbn [trace].
    rewrite <- !(assoc_L (++)). reflexivity. }
  split.
  { rewrite phases_app, Hph1. reflexivity. }
  destruct Hfr1 as (Hl & _ & Ht & Hp & Hf & _).
  cbn in *. auto.
Qed.

Lemma dispatch_spec (caller : tid) (chans : list Channel) :
  ∀ w, ∃ w' evs,
    for_each
      (fun channel =>
         t <- gets pollReturnTime_ ;; handleEvent env caller channel t)
      chans w = Ret tt w' ∧
    trace w' = trace w ++ evs ∧
    phases evs =
      map (fun ch => EvHandleEvent ch (pollReturnTime_ (state w))) chans ∧
    callback_frame (state w) (state w').
Proof.
  induction chans as [| ch chans IH]; intros w; cbn [for_each].
  - exists w, []. rewrite app_nil_r. auto using callback_frame_refl.
  - unfold bind at 1 2. unfold gets at 1. unfold handleEvent, bind at 1.
    cbn [emit].
    set (now := pollReturnTime_ (state w)).
    destruct (quiet_handleEvent_body env caller ch
                (mkWorld (state w) (trace w ++ [EvHandleEvent ch now])))
      as (w1 & evs1 & Hrun1 & Htr1 & Hph1 & Hfr1).
    rewrite Hrun1.
    destruct (IH w1) as (w2 & evs2 & Hrun2 & Htr2 & Hph2 & Hfr2).
    exists w2, (EvHandleEvent ch now :: evs1 ++ evs2).
    split; [exact Hrun2 |].
    split.
    { rewrite Htr2, Htr1. cbn [trace].
      rewrite <- !(assoc_L (++)). reflexivity. }
    split.
    { change (phases (EvHandleEvent ch now :: evs1 ++ evs2))
        with (EvHandleEvent ch now :: phases (evs1 ++ evs2)).
      rewrite phases_app, Hph1, Hph2. cbn [map]. f_equal.
      destruct Hfr1 as (_ & _ & _ & Hp & _). cbn in Hp. rewrite Hp.
      reflexivity. }
    eapply callback_frame_trans; [exact Hfr1 | exact Hfr2].
Qed.
End QueueProperties.

(** ** queueInLoop and runInLoop *)

Section QueueInLoop.
Variable env : Env.

(** C2: [queueInLoop(cb)] locks the mutex, appends [cb] at the end of
    [pendingFunctors_] and unlocks; then it calls [wakeup] exactly when
    the caller is not the owning thread or [callingPendingFunctors_] is
    set.  So the descriptor is written once more in that case and not
    otherwise.  On the loop thread: a task that calls [queueInLoop]
    while [doPendingFunctors] runs it causes a write, and a channel
    callback that calls it outside that phase causes none. *)
Theorem queueInLoop_appends_under_lock_then_wakes
    (caller : tid) (cb : Functor) (w : World EventLoop) :
  let l := state w in
  let wake := negb (threadId_ l =? caller)%Z || callingPendingFunctors_ l in
  let queued :=
    mkWorld (set_pendingFunctors (pendingFunctors_ l ++ [cb]) l)
      (trace w ++ [EvLock; EvPush cb; EvUnlock]) in
  queueInLoop env caller cb w =
    (if wake then wakeup env queued else Ret tt queued)
  ∧ (∃ w' evs,
       queueInLoop env caller cb w = Ret tt w' ∧
       pendingFunctors_ (state w') = pendingFunctors_ l ++ [cb] ∧
       trace w' = trace w ++ evs ∧
       lock_discipline false evs = true ∧
       wakeup_writes evs = (if wake then 1 else 0))
  ∧ (∀ g, pendingFunctors_ l = [FQueueInLoop g] →
       ∃ w', doPendingFunctors env (threadId_ l) w = Ret tt w' ∧
             pendingFunctors_ (state w') = [g] ∧
             wakeup_writes (trace w') = S (wakeup_writes (trace w)))
  ∧ (∀ fd g t, callingPendingFunctors_ l = false →
       ∃ w', handleEvent env (threadId_ l) (IoChannel fd (FQueueInLoop g)) t w
               = Ret tt w' ∧
             pendingFunctors_ (state w') = pendingFunctors_ l ++ [g] ∧
             wakeup_writes (trace w') = wakeup_writes (trace w)).
Proof.
  intros l wake queued.
  split; [apply queueInLoop_unfold |].
  split.
  { rewrite queueInLoop_unfold. fold l. fold wake. fold queued.
    destruct wake.
    - rewrite wakeup_unfold. eexists _, _. split; [reflexivity |].
      split; [reflexivity |].
      split; [cbn [trace queued]; rewrite <- (assoc_L (++)); reflexivity |].
      cbn. destruct (_ =? 8)%Z; split; reflexivity.
    - eexists _, _. repeat split. }
  split.
  { intros g Hpending.
    unfold doPendingFunctors.
    unfold bind, modify, gets, lock, unlock, emit. cbn [state trace].
    replace (pendingFunctors_ (set_callingPendingFunctors true (state w)))
      with [FQueueInLoop g] by (symmetry; exact Hpending).
    cbn [for_each call]. unfold bind, emit, ret. cbn [state trace].
    rewrite queueInLoop_unfold. cbn [state trace].
    replace (threadId_ (set_pendingFunctors [] (set_callingPendingFunctors true (state w))))
      with (threadId_ l) by reflexivity.
    rewrite Z.eqb_refl.
    replace (callingPendingFunctors_ (set_pendingFunctors [] (set_callingPendingFunctors true (state w))))
      with true by reflexivity.
    cbn [negb orb].
    rewrite wakeup_unfold. cbn [state trace].
    eexists. split; [reflexivity |]. split; [reflexivity |].
    cbn [state trace]. rewrite !wakeup_writes_app.
    destruct (_ =? 8)%Z; cbn; lia. }
  intros fd g t Hcalling.
  unfold handleEvent, bind, emit. cbn [state trace call].
  rewrite queueInLoop_unfold. cbn [state trace].
  rewrite Z.eqb_refl. fold l. rewrite Hcalling. cbn [negb orb].
  eexists. split; [reflexivity |]. split; [reflexivity |].
  cbn [state trace]. rewrite !wakeup_writes_app. cbn. lia.
Qed.
End QueueInLoop.

Lemma queueInLoop_appends_under_lock_then_wakes_witness :
  pendingFunctors_ (state loop_with_queueing_task) = [FQueueInLoop (FUser 1)] ∧
  callingPendingFunctors_ (state loop_with_queueing_task) = false ∧
  (∃ w', doPendingFunctors env_quit 1 loop_with_queueing_task = Ret tt w' ∧
         pendingFunctors_ (state w') = [FUser 1] ∧
         wakeup_writes (trace w') = 1) ∧
  (∃ w', handleEvent env_quit 1 (IoChannel 5 (FQueueInLoop (FUser 2))) 1000
           loop_with_queueing_task = Ret tt w' ∧
         pendingFunctors_ (state w') = [FQueueInLoop (FUser 1); FUser 2] ∧
         wakeup_writes (trace w') = 0).
Proof.
  destruct (queueInLoop_appends_under_lock_then_wakes env_quit 1 (FUser 9)
              loop_with_queueing_task) as (_ & _ & Hin & Hout).
  split; [reflexivity |]. split; [reflexivity |].
  split.
  - apply (Hin (FUser 1)). reflexivity.
  - apply (Hout 5%Z (FUser 2) 1000%Z). reflexivity.
Defined.

Section RunInLoop.
Variable env : Env.

(** C3: on the owning thread [runInLoop(cb)] runs the body of [cb]
    itself, and returns when that body has returned; its result is the
    result of the body.  On any other thread it runs nothing of [cb]: it
    is [queueInLoop(cb)], which appends [cb] to the queue and writes the
    wake-up descriptor, and the next [doPendingFunctors] of the owning
    thread invokes [cb]. *)
Theorem runInLoop_inline_or_queued
    (caller : tid) (cb : Functor) (w : World EventLoop) :
  let l := state w in
  (caller = threadId_ l →
     runInLoop env caller cb w =
       call env caller cb (mkWorld l (trace w ++ [EvInline cb])) ∧
     ∃ w' evs,
       runInLoop env caller cb w = Ret tt w' ∧
       trace w' = trace w ++ EvInline cb :: evs)
  ∧
  (caller ≠ threadId_ l →
     runInLoop env caller cb w = queueInLoop env caller cb w ∧
     runInLoop env caller cb w =
       wakeup env
         (mkWorld (set_pendingFunctors (pendingFunctors_ l ++ [cb]) l)
            (trace w ++ [EvLock; EvPush cb; EvUnlock])) ∧
     ∃ w',
       runInLoop env caller cb w = Ret tt w' ∧
       pendingFunctors_ (state w') = pendingFunctors_ l ++ [cb] ∧
       ∃ w'' evs,
         doPendingFunctors env (threadId_ l) w' = Ret tt w'' ∧
         trace w'' = trace w' ++ evs ∧
         last (phases evs) = Some (EvFunctor cb)).
Proof.
  intros l. unfold runInLoop. rewrite runInLoop_with_unfold. fold l.
  split.
  - intros ->. rewrite Z.eqb_refl. split; [reflexivity |].
    destruct (quiet_call env (threadId_ l) cb
                (mkWorld l (trace w ++ [EvInline cb])))
      as (w' & evs & Hrun & Htr & _ & _).
    exists w', evs. split; [exact Hrun |].
    rewrite Htr. cbn [trace]. rewrite <- (assoc_L (++)). reflexivity.
  - intros Hother.
    assert (Hneq : (threadId_ l =? caller)%Z = false)
      by (apply Z.eqb_neq; congruence).
    rewrite Hneq. split; [reflexivity |].
    rewrite queueInLoop_unfold. fold l. rewrite Hneq. cbn [negb orb].
    split; [reflexivity |].
    rewrite wakeup_unfold. cbn [state trace].
    eexists. split; [reflexivity |]. split; [reflexivity |].
    match goal with |- context [doPendingFunctors env _ ?w0] =>
      destruct (doPendingFunctors_spec env (threadId_ l) w0)
        as (w'' & evs & Hrun & Htr & Hph & _) end.
    exists w'', evs. split; [exact Hrun |]. split; [exact Htr |].
    rewrite Hph. cbn [state pendingFunctors_ set_pendingFunctors].
    rewrite map_app. cbn [map].
    change (EvSwap ?x :: ?a ++ [?b]) with ((EvSwap x :: a) ++ [b]).
    apply last_snoc.
Qed.
End RunInLoop.

Lemma runInLoop_inline_or_queued_witness :
  (∃ w', runInLoop env_quit 1 (FUser 4) loop0 = Ret tt w' ∧
         trace w' = [EvInline (FUser 4); EvUser 4]) ∧
  (∃ w', runInLoop env_quit 2 (FUser 4) loop0 = Ret tt w' ∧
         pendingFunctors_ (state w') = [FUser 4] ∧
         trace w' = [EvLock; EvPush (FUser 4); EvUnlock; EvSysWrite 3 1 8 8]).
Proof.
  destruct (runInLoop_inline_or_queued env_quit 1 (FUser 4) loop0)
    as [Hinline _].
  destruct (runInLoop_inline_or_queued env_quit 2 (FUser 4) loop0)
    as [_ Hqueued].
  split.
  - destruct Hinline as [Heq _]; [reflexivity |].
    eexists. split; [rewrite Heq; reflexivity | reflexivity].
  - destruct Hqueued as (_ & Heq & _); [cbn; lia |].
    eexists. split; [rewrite Heq; reflexivity |]. split; reflexivity.
Defined.

(** ** The loop *)

Lemma polls_phases (evs : list Event) : polls (phases evs) = polls evs.
Proof.
  unfold polls, phases. induction evs as [| e evs IH]; [reflexivity |].
  destruct e; cbn; auto.
Qed.

Lemma poll_answers_app (env : Env) (a b : list Event) :
  ∀ history,
    poll_answers env history a → poll_answers env (history ++ a) b →
    poll_answers env history (a ++ b).
Proof.
  induction a as [| e a IH]; intros history Ha Hb; cbn in *.
  - rewrite app_nil_r in Hb. exact Hb.
  - destruct Ha as [He Ha]. split; [exact He |].
    apply IH; [exact Ha |]. rewrite <- (assoc_L (++)). exact Hb.
Qed.

Lemma poll_answers_no_poll (env : Env) (evs : list Event) :
  ∀ history, polls evs = 0 → poll_answers env history evs.
Proof.
  induction evs as [| e evs IH]; intros history Hno; cbn; [exact I |].
  unfold polls in Hno. cbn in Hno.
  destruct e; cbn in Hno; try discriminate Hno; split; auto.
Qed.

Lemma polls_handle_events (now : Timestamp) (chans : list Channel) :
  polls (map (fun ch => EvHandleEvent ch now) chans) = 0.
Proof. induction chans; [reflexivity | exact IHchans]. Qed.

Lemma polls_functors (fs : list Functor) : polls (map EvFunctor fs) = 0.
Proof. induction fs; [reflexivity | exact IHfs]. Qed.

Section LoopProperties.
Variable env : Env.

(** One pass: ask the poller, dispatch every channel it returned, in its
    order and with its timestamp, then take the queue and run it. *)
Lemma loop_iteration_spec (caller : tid) (w : World EventLoop) :
  ∃ w' it rest,
    loop_iteration env caller w = Ret tt w' ∧
    os_poll env (trace w) = (it_now it, it_active it) ∧
    trace w' =
      trace w ++ EvPoll kPollTimeMs (it_now it) (it_active it) :: rest ∧
    EvQuitCheck false
      :: phases (EvPoll kPollTimeMs (it_now it) (it_active it) :: rest)
      = iteration_phases it ∧
    polls rest = 0 ∧
    looping_ (state w') = looping_ (state w) ∧
    threadId_ (state w') = threadId_ (state w) ∧
    callingPendingFunctors_ (state w') = false.
Proof.
  unfold loop_iteration.
  set (dispatch := for_each _).
  unfold bind, modify, gets, poll. cbn [state trace].
  destruct (os_poll env (trace w)) as [now active] eqn:Hpoll.
  cbn [state trace activeChannels_ set_pollReturnTime set_activeChannels app].
  subst dispatch.
  match goal with |- context [for_each _ active ?w0] =>
    destruct (dispatch_spec env caller active w0)
      as (w3 & evs3 & Hrun3 & Htr3 & Hph3 & Hfr3) end.
  rewrite Hrun3.
  destruct (doPendingFunctors_spec env caller w3)
    as (w4 & evs4 & Hrun4 & Htr4 & Hph4 & Hc4 & Hl4 & Ht4 & _).
  exists w4, (mkIteration now active (pendingFunctors_ (state w3))),
    (evs3 ++ evs4).
  cbn [it_now it_active it_functors].
  split; [exact Hrun4 |]. split; [reflexivity |].
  split.
  { rewrite Htr4, Htr3. cbn [trace].
    rewrite <- !(assoc_L (++)). reflexivity. }
  assert (Hph : phases (evs3 ++ evs4) =
                map (fun ch => EvHandleEvent ch now) active
                ++ EvSwap (pendingFunctors_ (state w3))
                :: map EvFunctor (pendingFunctors_ (state w3))).
  { rewrite phases_app, Hph3, Hph4. reflexivity. }
  split.
  { unfold iteration_phases. cbn [it_now it_active it_functors app].
    change (phases (EvPoll kPollTimeMs now active :: evs3 ++ evs4))
      with (EvPoll kPollTimeMs now active :: phases (evs3 ++ evs4)).
    rewrite Hph. reflexivity. }
  split.
  { rewrite <- polls_phases, Hph, polls_app.
    rewrite polls_handle_events.
    change (polls (EvSwap ?x :: ?y)) with (polls y).
    rewrite polls_functors. reflexivity. }
  destruct Hfr3 as (Hl3 & _ & Ht3 & _).
  cbn in Hl3, Ht3. split; [congruence |]. split; [congruence | exact Hc4].
Qed.

Lemma while_not_quit_exit (fuel : nat) (caller : tid) (w : World EventLoop) :
  quit_ (state w) = true →
  while_not_quit env (S fuel) caller w =
    Ret tt (mkWorld (state w) (trace w ++ [EvQuitCheck true])).
Proof.
  intros Hq. cbn [while_not_quit]. unfold bind, gets, emit.
  rewrite Hq. reflexivity.
Qed.

Lemma while_not_quit_continue (fuel : nat) (caller : tid) (w : World EventLoop) :
  quit_ (state w) = false →
  while_not_quit env (S fuel) caller w =
    (loop_iteration env caller ;; while_not_quit env fuel caller)
      (mkWorld (state w) (trace w ++ [EvQuitCheck false])).
Proof.
  intros Hq. cbn [while_not_quit]. unfold bind at 1 2, gets, emit.
  rewrite Hq. reflexivity.
Qed.

(** The [while] of [loop], for every budget: it returns at the first
    loop head that sees [quit_], after complete passes only; it never
    ends the process; and the budget runs out only after as many
    complete passes, none of which saw [quit_] at its head. *)
Lemma while_not_quit_spec (caller : tid) (fuel : nat) :
  ∀ w,
    match while_not_quit env fuel caller w with
    | Ret _ w' =>
        ∃ its evs,
          trace w' = trace w ++ evs ∧
          phases evs = flat_map iteration_phases its ++ [EvQuitCheck true] ∧
          poll_answers env (trace w) evs ∧
          length its < fuel ∧
          quit_ (state w') = true ∧
          looping_ (state w') = looping_ (state w) ∧
          threadId_ (state w') = threadId_ (state w)
    | OutOfFuel w' =>
        ∃ its evs,
          trace w' = trace w ++ evs ∧
          phases evs = flat_map iteration_phases its ∧
          poll_answers env (trace w) evs ∧
          length its = fuel ∧
          looping_ (state w') = looping_ (state w)
    | Abort _ => False
    end.
Proof.
  induction fuel as [| fuel IH]; intros w.
  - cbn. exists [], []. rewrite app_nil_r. repeat split.
  - destruct (quit_ (state w)) eqn:Hq.
    + rewrite while_not_quit_exit by exact Hq.
      exists [], [EvQuitCheck true]. cbn. repeat split; auto. lia.
    + rewrite while_not_quit_continue by exact Hq.
      unfold bind.
      destruct (loop_iteration_spec caller
                  (mkWorld (state w) (trace w ++ [EvQuitCheck false])))
        as (w1 & it & rest & Hrun & Hpoll & Htr & Hph & Hno & Hl & Ht & _).
      rewrite Hrun. cbn [state trace] in *.
      set (pass := EvQuitCheck false
                   :: EvPoll kPollTimeMs (it_now it) (it_active it) :: rest).
      assert (Htr1 : trace w1 = trace w ++ pass).
      { rewrite Htr, <- (assoc_L (++)). reflexivity. }
      assert (Hpa : poll_answers env (trace w) pass).
      { cbn. split; [exact I |]. split; [exact Hpoll |].
        apply poll_answers_no_poll. exact Hno. }
      specialize (IH w1).
      destruct (while_not_quit env fuel caller w1) as [[] w2 | w2 | w2].
      * destruct IH as (its & evs & Htr2 & Hph2 & Hpa2 & Hlen & Hq2 & Hl2 & Ht2).
        exists (it :: its), (pass ++ evs).
        split; [rewrite Htr2, Htr1, (assoc_L (++)); reflexivity |].
        split.
        { rewrite phases_app, Hph2. cbn [flat_map].
          rewrite <- Hph, <- (assoc_L (++)). reflexivity. }
        split; [apply poll_answers_app; [exact Hpa | rewrite <- Htr1; exact Hpa2] |].
        cbn [length]. repeat split; try congruence. lia.
      * exact IH.
      * destruct IH as (its & evs & Htr2 & Hph2 & Hpa2 & Hlen & Hl2).
        exists (it :: its), (pass ++ evs).
        split; [rewrite Htr2, Htr1, (assoc_L (++)); reflexivity |].
        split.
        { rewrite phases_app, Hph2. cbn [flat_map].
          rewrite <- Hph. reflexivity. }
        split; [apply poll_answers_app; [exact Hpa | rewrite <- Htr1; exact Hpa2] |].
        cbn [length]. repeat split; try congruence.
Qed.
End LoopProperties.

Section LoopTheorems.
Variable env : Env.

Lemma loop_unfold (fuel : nat) (caller : tid) (w : World EventLoop) :
  loop env fuel caller w =
    match
      while_not_quit env fuel caller
        (mkWorld (set_quit false (set_looping true (state w)))
           (trace w ++ [EvLog LvInfo "EventLoop %p start looping \n"]))
    with
    | Ret _ w1 =>
        Ret tt
          (mkWorld (set_looping false (state w1))
             (trace w1 ++ [EvLog LvInfo "EventLoop %p stop looping. \n"]))
    | Abort w1 => Abort w1
    | OutOfFuel w1 => OutOfFuel w1
    end.
Proof.
  unfold loop, bind, modify, LOG_INFO, emit. cbn [state trace].
  destruct (while_not_quit env fuel caller _); reflexivity.
Qed.

End LoopTheorems.




(** ** One loop per thread *)

(** Every loop that exists is the one its owning thread's
    [t_loopInThisThread] points to. *)
Lemma sentinel_inv_unique (p : Process) :
  sentinel_inv p → ∀ t, at_most_one_loop t p.
Proof.
  intros Hinv t a1 a2 l1 l2 H1 H2 Ht1 Ht2.
  apply Hinv in H1. apply Hinv in H2.
  rewrite Ht1 in H1. rewrite Ht2 in H2. congruence.
Qed.

Section LifetimeProperties.
Variable env : Env.

Lemma EventLoop_ctor_unfold (t : tid) (this : addr) (w : World Process) :
  let evtfd := os_eventfd env (trace w) in
  let p := state w in
  EventLoop_ctor env t this w =
    if (evtfd <? 0)%Z then
      Abort (mkWorld p (trace w ++ [EvEventfd evtfd;
                                    EvLog LvFatal "eventfd error:%d \n"]))
    else
      match t_loopInThisThread p !! t with
      | Some _ =>
          Abort
            (mkWorld p
               (trace w ++
                [EvEventfd evtfd;
                 EvLog LvDebug "EventLoop created %p in thread %d \n";
                 EvLog LvFatal
                   "Another EventLoop %p exists in this thread %d \n"]))
      | None =>
          Ret tt
            (mkWorld
               (mkProcess (<[t := this]> (t_loopInThisThread p))
                  (<[this := new_loop t evtfd]> (loops p)))
               (trace w ++
                [EvEventfd evtfd;
                 EvLog LvDebug "EventLoop created %p in thread %d \n";
                 EvSetReadCallback evtfd;
                 EvEnableReading evtfd]))
      end.
Proof.
  intros evtfd p.
  unfold EventLoop_ctor, createEventfd, bind, sys_eventfd, LOG_DEBUG,
    LOG_FATAL, gets, modify, emit, ret.
  cbn [state trace]. fold evtfd. fold p.
  destruct (evtfd <? 0)%Z.
  - cbn [state trace]. rewrite <- (assoc_L (++)). reflexivity.
  - cbn [state trace].
    destruct (t_loopInThisThread p !! t).
    + cbn [state trace]. rewrite <- !(assoc_L (++)). reflexivity.
    + cbn [state trace t_loopInThisThread loops].
      rewrite <- !(assoc_L (++)). reflexivity.
Qed.

Lemma EventLoop_dtor_unfold (t : tid) (this : addr) (w : World Process) :
  let p := state w in
  EventLoop_dtor t this w =
    match loops p !! this with
    | None => Ret tt w
    | Some l =>
        Ret tt
          (mkWorld
             (mkProcess (delete t (t_loopInThisThread p))
                (delete this (loops p)))
             (trace w ++
              [EvDisableAll (wakeupFd_ l); EvRemove (wakeupFd_ l);
               EvClose (wakeupFd_ l)]))
    end.
Proof.
  intros p.
  unfold EventLoop_dtor, bind, gets, modify, sys_close, emit, ret.
  cbn [state trace]. fold p.
  destruct (loops p !! this); [| reflexivity].
  cbn [state trace]. rewrite <- !(assoc_L (++)). reflexivity.
Qed.

Lemma ctor_preserves_inv (t : tid) (this : addr) (w w' : World Process) :
  sentinel_inv (state w) →
  EventLoop_ctor env t this w = Ret tt w' →
  sentinel_inv (state w').
Proof.
  intros Hinv. rewrite EventLoop_ctor_unfold. cbv zeta.
  destruct (_ <? 0)%Z; [discriminate |].
  destruct (t_loopInThisThread (state w) !! t) eqn:Hcur; [discriminate |].
  intros [= <-]. cbn [state].
  intros a l. cbn [loops t_loopInThisThread].
  destruct (decide (a = this)) as [-> | Hne].
  - rewrite lookup_insert_eq. intros [= <-]. cbn [threadId_ new_loop].
    apply lookup_insert_eq.
  - rewrite lookup_insert_ne by congruence. intros Hl.
    pose proof (Hinv a l Hl) as Hs.
    destruct (decide (threadId_ l = t)) as [Heq | Hnt].
    + rewrite Heq, Hcur in Hs. discriminate Hs.
    + rewrite lookup_insert_ne by congruence. exact Hs.
Qed.

Lemma dtor_preserves_inv (t : tid) (this : addr) (w w' : World Process) :
  sentinel_inv (state w) →
  owner_destroys (Destroy t this) (state w) = true →
  EventLoop_dtor t this w = Ret tt w' →
  sentinel_inv (state w').
Proof.
  intros Hinv Hown. rewrite EventLoop_dtor_unfold. cbv zeta.
  cbn [owner_destroys] in Hown.
  destruct (loops (state w) !! this) as [self |] eqn:Hself; [| discriminate].
  apply Z.eqb_eq in Hown.
  intros [= <-]. cbn [state].
  intros a l. cbn [loops t_loopInThisThread].
  destruct (decide (a = this)) as [-> | Hne].
  - rewrite lookup_delete_eq. discriminate.
  - rewrite lookup_delete_ne by congruence. intros Hl.
    pose proof (Hinv a l Hl) as Hs.
    pose proof (Hinv this self Hself) as Hthis.
    destruct (decide (threadId_ l = t)) as [Heq | Hnt].
    + rewrite Heq in Hs. rewrite Hown in Hthis. congruence.
    + rewrite lookup_delete_ne by congruence. exact Hs.
Qed.

Lemma run_ops_preserves_inv (ops : list LifetimeOp) :
  ∀ w w',
    sentinel_inv (state w) →
    disciplined env ops w = true →
    run_ops env ops w = Ret tt w' →
    sentinel_inv (state w').
Proof.
  induction ops as [| o ops IH]; intros w w' Hinv Hdisc Hrun.
  - injection Hrun as <-. exact Hinv.
  - cbn [disciplined] in Hdisc. apply andb_true_iff in Hdisc as [Hown Hrest].
    unfold run_ops in Hrun. cbn [for_each] in Hrun. unfold bind in Hrun.
    destruct (run_op env o w) as [[] w1 | w1 | w1] eqn:Hop;
      try discriminate Hrun.
    apply (IH w1 w'); [| exact Hrest | exact Hrun].
    destruct o as [t this | t this]; cbn [run_op] in Hop.
    + eapply ctor_preserves_inv; eassumption.
    + eapply dtor_preserves_inv; eassumption.
Qed.
End LifetimeProperties.

Section OneLoopPerThread.
Variable env : Env.

(** C1, as the code has it: the constructor ends the process when the
    constructing thread's [t_loopInThisThread] is already set; otherwise
    (the wake-up descriptor having been created) it returns with that
    thread's [t_loopInThisThread] pointing to the new loop, which now
    exists.  The destructor of a loop resets the [t_loopInThisThread] of
    the thread that runs it, and the loop no longer exists, after which
    that thread can construct a loop again.  Hence at most one loop of
    any thread exists after each step of every history of constructions
    and destructions in which each loop is destroyed by its owning
    thread. *)
Theorem one_loop_per_thread :
  (∀ (t : tid) (this other : addr) (w : World Process),
      t_loopInThisThread (state w) !! t = Some other →
      ∃ w', EventLoop_ctor env t this w = Abort w')
  ∧
  (∀ (t : tid) (this : addr) (w : World Process),
      t_loopInThisThread (state w) !! t = None →
      (0 ≤ os_eventfd env (trace w))%Z →
      ∃ w',
        EventLoop_ctor env t this w = Ret tt w' ∧
        t_loopInThisThread (state w') =
          <[t := this]> (t_loopInThisThread (state w)) ∧
        loops (state w') =
          <[this := new_loop t (os_eventfd env (trace w))]> (loops (state w)))
  ∧
  (∀ (t : tid) (this : addr) (l : EventLoop) (w : World Process),
      loops (state w) !! this = Some l →
      ∃ w',
        EventLoop_dtor t this w = Ret tt w' ∧
        t_loopInThisThread (state w') = delete t (t_loopInThisThread (state w)) ∧
        loops (state w') = delete this (loops (state w)) ∧
        ((0 ≤ os_eventfd env (trace w'))%Z →
         ∀ this' : addr,
           ∃ w'',
             EventLoop_ctor env t this' w' = Ret tt w'' ∧
             t_loopInThisThread (state w'') !! t = Some this'))
  ∧
  (∀ (ops : list LifetimeOp) (w' : World Process),
      disciplined env ops empty_process = true →
      run_ops env ops empty_process = Ret tt w' →
      ∀ t, at_most_one_loop t (state w')).
Proof.
  assert (Hctor : ∀ (t : tid) (this : addr) (w : World Process),
             t_loopInThisThread (state w) !! t = None →
             (0 ≤ os_eventfd env (trace w))%Z →
             ∃ w',
               EventLoop_ctor env t this w = Ret tt w' ∧
               t_loopInThisThread (state w') =
                 <[t := this]> (t_loopInThisThread (state w)) ∧
               loops (state w') =
                 <[this := new_loop t (os_eventfd env (trace w))]>
                   (loops (state w))).
  { intros t this w Hnull Hfd.
    rewrite EventLoop_ctor_unfold. cbv zeta.
    replace (os_eventfd env (trace w) <? 0)%Z with false
      by (symmetry; apply Z.ltb_ge; exact Hfd).
    rewrite Hnull. eexists. split; [reflexivity |]. split; reflexivity. }
  split; [| split; [exact Hctor | split]].
  - intros t this other w Hset.
    rewrite EventLoop_ctor_unfold. cbv zeta. rewrite Hset.
    destruct (_ <? 0)%Z; eexists; reflexivity.
  - intros t this l w Hlive.
    rewrite EventLoop_dtor_unfold. cbv zeta. rewrite Hlive.
    eexists. split; [reflexivity |]. cbn [state trace].
    split; [reflexivity |]. split; [reflexivity |].
    intros Hfd this'.
    match goal with |- context [EventLoop_ctor env t this' ?w1] =>
      destruct (Hctor t this' w1) as (w'' & Hrun & Htls & _) end.
    + cbn [state t_loopInThisThread]. apply lookup_delete_eq.
    + exact Hfd.
    + exists w''. split; [exact Hrun |].
      rewrite Htls. apply lookup_insert_eq.
  - intros ops w' Hdisc Hrun.
    apply sentinel_inv_unique.
    apply (run_ops_preserves_inv env ops empty_process w');
      [| exact Hdisc | exact Hrun].
    intros a l. cbn. rewrite lookup_empty. discriminate.
Qed.
End OneLoopPerThread.

Lemma one_loop_per_thread_witness :
  (∃ w', EventLoop_ctor env_quit 1 300 one_loop_process = Abort w')
  ∧ (∃ w', EventLoop_ctor env_quit 1 100 empty_process = Ret tt w' ∧
           t_loopInThisThread (state w') !! 1%Z = Some 100%Z)
  ∧ (∃ w', EventLoop_dtor 1 100 one_loop_process = Ret tt w' ∧
           t_loopInThisThread (state w') !! 1%Z = None ∧
           ∃ w'', EventLoop_ctor env_quit 1 300 w' = Ret tt w'' ∧
                  t_loopInThisThread (state w'') !! 1%Z = Some 300%Z)
  ∧ disciplined env_quit lifetime_history empty_process = true
  ∧ (∃ w', run_ops env_quit lifetime_history empty_process = Ret tt w' ∧
           ∀ t, at_most_one_loop t (state w')).
Proof.
  destruct (one_loop_per_thread env_quit) as (Hdup & Hnew & Hdel & Hinv).
  split.
  { apply (Hdup 1%Z 300%Z 100%Z one_loop_process). reflexivity. }
  split.
  { destruct (Hnew 1%Z 100%Z empty_process) as (w' & Hrun & Htls & _).
    - reflexivity.
    - cbn. lia.
    - exists w'. split; [exact Hrun |]. rewrite Htls. apply lookup_insert_eq. }
  split.
  { destruct (Hdel 1%Z 100%Z (new_loop 1 3) one_loop_process)
      as (w' & Hrun & Htls & _ & Hagain).
    - reflexivity.
    - exists w'. split; [exact Hrun |].
      split; [rewrite Htls; apply lookup_delete_eq |].
      apply Hagain. cbn. lia. }
  assert (Hdisc : disciplined env_quit lifetime_history empty_process = true)
    by (vm_compute; reflexivity).
  split; [exact Hdisc |].
  destruct (run_ops env_quit lifetime_history empty_process)
    as [[] w' | w' | w'] eqn:Hrun.
  - exists w'. split; [reflexivity |].
    apply (Hinv lifetime_history w' Hdisc Hrun).
  - vm_compute in Hrun. discriminate Hrun.
  - vm_compute in Hrun. discriminate Hrun.
Defined.

(** C1, as stated, fails: the destructor resets the [t_loopInThisThread]
    of the thread that runs it, whichever loop it destroys.  Threads 1 and
    2 build their loops at 100 and 200; thread 2 destroys the loop of
    thread 1 and then builds a second loop at 300.  No call is fatal, and
    the loops at 200 and 300 both belong to thread 2; the sentinel of
    thread 1 still points to the destroyed loop. *)
Lemma destroy_by_another_thread_allows_second_loop :
  (∃ w', run_ops env_quit foreign_destroy_history empty_process = Ret tt w' ∧
         (threadId_ <$> loops (state w') !! 200%Z) = Some 2%Z ∧
         (threadId_ <$> loops (state w') !! 300%Z) = Some 2%Z ∧
         loops (state w') !! 100%Z = None ∧
         t_loopInThisThread (state w') !! 1%Z = Some 100%Z ∧
         ¬ at_most_one_loop 2 (state w'))
  ∧ disciplined env_quit foreign_destroy_history empty_process = false
  ∧ ¬ one_loop_per_thread_in_every_history.
Proof.
  destruct (run_ops env_quit foreign_destroy_history empty_process)
    as [[] w' | w' | w'] eqn:Hrun;
    [| vm_compute in Hrun; discriminate Hrun
     | vm_compute in Hrun; discriminate Hrun].
  assert (H200 : loops (state w') !! 200%Z = Some (new_loop 2 3)).
  { vm_compute in Hrun. injection Hrun as <-. vm_compute. reflexivity. }
  assert (H300 : loops (state w') !! 300%Z = Some (new_loop 2 3)).
  { vm_compute in Hrun. injection Hrun as <-. vm_compute. reflexivity. }
  assert (Htwo : ¬ at_most_one_loop 2 (state w')).
  { intros Hone.
    pose proof (Hone 200%Z 300%Z _ _ H200 H300 eq_refl eq_refl) as Heq.
    discriminate Heq. }
  split.
  { exists w'. split; [reflexivity |].
    split; [rewrite H200; reflexivity |].
    split; [rewrite H300; reflexivity |].
    split; [vm_compute in Hrun; injection Hrun as <-; vm_compute; reflexivity |].
    split; [vm_compute in Hrun; injection Hrun as <-; vm_compute; reflexivity |].
    exact Htwo. }
  split; [vm_compute; reflexivity |].
  intros Hall. exact (Htwo (Hall env_quit foreign_destroy_history w' Hrun 2%Z)).
Qed.

(** ** Thread::start *)

Section ThreadStartProperties.
Variable worker_tid : Z.

Lemma run_schedule_app (a b : list Who) (s : StartState) :
  run_schedule worker_tid (a ++ b) s =
    run_schedule worker_tid b (run_schedule worker_tid a s).
Proof. unfold run_schedule. apply fold_left_app. Qed.

(** Case analysis on the two program counters and the semaphore. *)
Ltac step_cases s Hinv Hstep :=
  destruct s as [th [n |] st wk]; destruct Hinv as [Htid Hsem];
  destruct st, wk; cbn in Hstep, Htid, Hsem |- *;
  try discriminate Hstep;
  try (destruct (0 <? n)%Z eqn:Hpos;
       [apply Z.ltb_lt in Hpos | apply Z.ltb_ge in Hpos]);
  try discriminate Hstep;
  injection Hstep as <-; cbn;
  intuition (try discriminate; try congruence; try lia).

Lemma handshake_inv_initial : handshake_inv worker_tid start_initial.
Proof. split; cbn; [discriminate | auto]. Qed.

Lemma starter_step_handshake (s s' : StartState) :
  handshake_inv worker_tid s → starter_step s = Some s' →
  handshake_inv worker_tid s'.
Proof.
  intros Hinv Hstep. unfold handshake_inv, starter_step in *.
  step_cases s Hinv Hstep.
Qed.

Lemma worker_step_handshake (s s' : StartState) :
  handshake_inv worker_tid s → worker_step worker_tid s = Some s' →
  handshake_inv worker_tid s'.
Proof.
  intros Hinv Hstep. unfold handshake_inv, worker_step in *.
  step_cases s Hinv Hstep.
Qed.

(** Without signals the handshake invariant holds after every schedule. *)
Lemma run_schedule_handshake (sched : list Who) :
  ∀ s, signal_free sched = true → handshake_inv worker_tid s →
       handshake_inv worker_tid (run_schedule worker_tid sched s).
Proof.
  induction sched as [| who sched IH]; intros s Hfree Hinv; [exact Hinv |].
  cbn [signal_free forallb] in Hfree. apply andb_true_iff in Hfree as [Hwho Hfree].
  apply IH; [exact Hfree |].
  destruct who; cbn [sched_step]; [| | discriminate Hwho].
  - destruct (starter_step s) as [s' |] eqn:Hstep; cbn; [| exact Hinv].
    eapply starter_step_handshake; eassumption.
  - destruct (worker_step worker_tid s) as [s' |] eqn:Hstep; cbn; [| exact Hinv].
    eapply worker_step_handshake; eassumption.
Qed.

Lemma start_inv_initial : start_inv worker_tid start_initial.
Proof. split; cbn; [discriminate | auto]. Qed.

Lemma starter_step_inv (s s' : StartState) :
  start_inv worker_tid s → starter_step s = Some s' →
  start_inv worker_tid s'.
Proof.
  intros Hinv Hstep. unfold start_inv, starter_step in *.
  step_cases s Hinv Hstep.
Qed.

Lemma worker_step_inv (s s' : StartState) :
  start_inv worker_tid s → worker_step worker_tid s = Some s' →
  start_inv worker_tid s'.
Proof.
  intros Hinv Hstep. unfold start_inv, worker_step in *.
  step_cases s Hinv Hstep.
Qed.

Lemma signal_step_inv (s s' : StartState) :
  start_inv worker_tid s → signal_step s = Some s' →
  start_inv worker_tid s'.
Proof.
  intros Hinv Hstep. unfold start_inv, signal_step in *.
  step_cases s Hinv Hstep.
Qed.

Lemma sched_step_inv (who : Who) (s : StartState) :
  start_inv worker_tid s → start_inv worker_tid (sched_step worker_tid who s).
Proof.
  intros Hinv. destruct who; cbn [sched_step].
  - destruct (starter_step s) as [s' |] eqn:Hstep; cbn; [| exact Hinv].
    eapply starter_step_inv; eassumption.
  - destruct (worker_step worker_tid s) as [s' |] eqn:Hstep; cbn; [| exact Hinv].
    eapply worker_step_inv; eassumption.
  - destruct (signal_step s) as [s' |] eqn:Hstep; cbn; [| exact Hinv].
    eapply signal_step_inv; eassumption.
Qed.

(** The invariant holds after every schedule, signals included. *)
Lemma run_schedule_inv (sched : list Who) :
  ∀ s, start_inv worker_tid s →
       start_inv worker_tid (run_schedule worker_tid sched s).
Proof.
  induction sched as [| who sched IH]; intros s Hinv; [exact Hinv |].
  apply IH. apply sched_step_inv. exact Hinv.
Qed.

(** X14: whatever the schedule, signals included, the new thread has
    stored its id in [tid_] by the time it is about to call, or has
    called, the user function. *)
Lemma user_function_runs_after_tid_assigned (sched : list Who) :
  let s := run_schedule worker_tid sched start_initial in
  worker s = AtFunc ∨ worker s = FuncCalled → tid_ (thread s) = worker_tid.
Proof.
  intros s.
  pose proof (run_schedule_inv sched start_initial start_inv_initial)
    as [Htid _].
  fold s in Htid.
  intros [Hw | Hw]; apply Htid; rewrite Hw; reflexivity.
Qed.

(** X15: as long as no signal interrupts [sem_wait], when [start()] has
    returned, [tid_] holds the new thread's id and the new thread has
    passed [sem_post]. *)
Lemma uninterrupted_start_returns_after_tid_assigned (sched : list Who) :
  signal_free sched = true →
  let s := run_schedule worker_tid sched start_initial in
  starter s = Returned →
  tid_ (thread s) = worker_tid ∧ (worker s = AtFunc ∨ worker s = FuncCalled).
Proof.
  intros Hfree s Hret.
  pose proof (run_schedule_handshake sched start_initial Hfree
                handshake_inv_initial) as [Htid Hsem].
  fold s in Htid, Hsem.
  assert (Hposted : worker s = AtFunc ∨ worker s = FuncCalled).
  { destruct (sem s) as [n |].
    - destruct Hsem as (Hn & Heq & _). rewrite Hret in Heq. cbn in Heq.
      destruct (worker s); cbn in Heq; try lia; auto.
    - destruct Hsem as [_ [H | H]]; rewrite Hret in H; discriminate H. }
  split; [| exact Hposted].
  destruct Hposted as [Hw | Hw]; apply Htid; rewrite Hw; reflexivity.
Qed.

(** C9: [start()] can return before the new thread has stored its id.
    The caller sets [started_], initialises the semaphore, creates the
    thread and blocks in [sem_wait]; a signal handler then runs in the
    caller, [sem_wait] returns -1, its result is discarded and [start()]
    returns: [tid_] is still 0, the new thread has not yet executed
    [tid_ = CurrentThread::tid()] and the semaphore was never posted.
    The new thread stores its id only with its next step.  So the
    statement that [start()] returns only after the id has been assigned
    does not hold of the code. *)
Theorem interrupted_sem_wait_lets_start_return_early :
  let s := run_schedule worker_tid interrupted_schedule start_initial in
  (starter s = Returned ∧
   worker s = AtAssignTid ∧
   tid_assigned (worker s) = false ∧
   tid_ (thread s) = 0%Z ∧
   started_ (thread s) = true ∧
   sem s = Some 0%Z ∧
   tid_ (thread (run_schedule worker_tid (interrupted_schedule ++ [Worker])
                   start_initial)) = worker_tid)
  ∧ ¬ start_returns_only_after_tid_assigned.
Proof.
  split; [repeat split |].
  intros Hall.
  destruct (Hall 4711%Z interrupted_schedule eq_refl) as [Hassigned _].
  discriminate Hassigned.
Qed.

(** X13: [start()] is not stuck for ever: whatever the two threads have
    done so far, once the caller is given three steps, the new thread two
    and the caller one more, the caller has returned. *)
Lemma start_eventually_returns (sched : list Who) :
  starter
    (run_schedule worker_tid
       (sched ++ [Starter; Starter; Starter; Worker; Worker; Starter])
       start_initial) = Returned.
Proof.
  rewrite run_schedule_app.
  pose proof (run_schedule_inv sched start_initial start_inv_initial)
    as [_ Hsem].
  destruct (run_schedule worker_tid sched start_initial) as [th sm st wk].
  cbn in Hsem.
  destruct sm as [n |].
  - destruct Hsem as (Hn & Heq & Hne1 & Hne2 & Hiff).
    destruct st; try congruence;
      destruct wk; cbn in Hn, Heq;
      try (destruct Hiff as [Hiff _]; discriminate (Hiff eq_refl));
      try (destruct Hiff as [_ Hiff]; discriminate (Hiff eq_refl));
      try (rewrite (Heq ltac:(discriminate)));
      reflexivity.
  - destruct Hsem as [-> [-> | ->]]; reflexivity.
Qed.
End ThreadStartProperties.

Lemma user_function_runs_after_tid_assigned_witness :
  worker (run_schedule 4711 (interrupted_schedule ++ [Worker; Worker])
            start_initial) = AtFunc ∧
  tid_ (thread (run_schedule 4711 (interrupted_schedule ++ [Worker; Worker])
                  start_initial)) = 4711%Z.
Proof.
  split; [reflexivity |].
  apply (user_function_runs_after_tid_assigned 4711
           (interrupted_schedule ++ [Worker; Worker])).
  left. reflexivity.
Defined.

Lemma uninterrupted_start_returns_after_tid_assigned_witness :
  signal_free handshake_schedule = true ∧
  worker (run_schedule 4711 handshake_schedule start_initial) = FuncCalled ∧
  starter (run_schedule 4711 handshake_schedule start_initial) = Returned ∧
  tid_ (thread (run_schedule 4711 handshake_schedule start_initial)) = 4711%Z.
Proof.
  split; [reflexivity |]. split; [reflexivity |]. split; [reflexivity |].
  apply (uninterrupted_start_returns_after_tid_assigned 4711 handshake_schedule);
    reflexivity.
Defined.

(** * Further properties of the loop *)

(** ** Effects of callbacks *)

Lemma reads_app (a b : list Event) : reads (a ++ b) = reads a + reads b.
Proof. unfold reads. rewrite List.filter_app. apply length_app. Qed.

Lemma mutex_after_app (a b : list Event) :
  ∀ held held',
    mutex_after held a = Some held' →
    mutex_after held (a ++ b) = mutex_after held' b.
Proof.
  induction a as [| e a IH]; intros held held' Ha; cbn in *.
  - injection Ha as <-. reflexivity.
  - destruct held, e; try discriminate Ha; eauto.
Qed.

Lemma effect_refl (w : World EventLoop) : effect [] false 0 0 w w [].
Proof.
  unfold effect. rewrite !app_nil_r, orb_false_r.
  repeat split.
Qed.

Lemma effect_seq (enq1 enq2 : list Functor) (q1 q2 : bool)
    (nw1 nw2 nr1 nr2 : nat) (w w1 w2 : World EventLoop)
    (evs1 evs2 : list Event) :
  effect enq1 q1 nw1 nr1 w w1 evs1 →
  effect enq2 q2 nw2 nr2 w1 w2 evs2 →
  effect (enq1 ++ enq2) (q1 || q2) (nw1 + nw2) (nr1 + nr2) w w2 (evs1 ++ evs2).
Proof.
  intros (Htr1 & Hfr1 & Hp1 & Hq1 & Hw1 & Hr1 & Hm1)
         (Htr2 & Hfr2 & Hp2 & Hq2 & Hw2 & Hr2 & Hm2).
  unfold effect.
  split; [rewrite Htr2, Htr1, (assoc_L (++)); reflexivity |].
  split; [eapply callback_frame_trans; eassumption |].
  split; [rewrite Hp2, Hp1, (assoc_L (++)); reflexivity |].
  split; [rewrite Hq2, Hq1, orb_assoc; reflexivity |].
  split; [rewrite wakeup_writes_app; congruence |].
  split; [rewrite reads_app; congruence |].
  rewrite (mutex_after_app evs1 evs2 false false Hm1). exact Hm2.
Qed.

(** An event in front that is neither a transfer on the descriptor nor a
    mutex or queue operation. *)
Lemma effect_mark (e : Event) (enq : list Functor) (q : bool) (nw nr : nat)
    (w w' : World EventLoop) (evs : list Event) :
  is_write e = false → is_read e = false → mutex_after false [e] = Some false →
  effect enq q nw nr (mkWorld (state w) (trace w ++ [e])) w' evs →
  effect enq q nw nr w w' (e :: evs).
Proof.
  intros Hw Hr Hm (Htr & Hfr & Hp & Hq & Hnw & Hnr & Hmu).
  cbn [state trace] in *. unfold effect.
  split; [rewrite Htr, <- (assoc_L (++)); reflexivity |].
  split; [exact Hfr |]. split; [exact Hp |]. split; [exact Hq |].
  split; [unfold wakeup_writes in *; cbn; rewrite Hw; exact Hnw |].
  split; [unfold reads in *; cbn; rewrite Hr; exact Hnr |].
  change (e :: evs) with ([e] ++ evs).
  rewrite (mutex_after_app [e] evs false false Hm). exact Hmu.
Qed.

Section CallbackEffects.
Variable env : Env.

Lemma wakeup_effect (w : World EventLoop) :
  ∃ w' evs, wakeup env w = Ret tt w' ∧ effect [] false 1 0 w w' evs.
Proof.
  eexists _, _. split; [apply wakeup_unfold |].
  unfold effect. cbn [state trace].
  split; [reflexivity |]. split; [apply callback_frame_refl |].
  rewrite app_nil_r, orb_false_r.
  split; [reflexivity |]. split; [reflexivity |].
  destruct (_ =? 8)%Z; repeat split.
Qed.

Lemma handleRead_effect (w : World EventLoop) :
  ∃ w' evs, handleRead env w = Ret tt w' ∧ effect [] false 0 1 w w' evs.
Proof.
  eexists _, _. split; [apply handleRead_unfold |].
  unfold effect. cbn [state trace].
  split; [reflexivity |]. split; [apply callback_frame_refl |].
  rewrite app_nil_r, orb_false_r.
  split; [reflexivity |]. split; [reflexivity |].
  destruct (_ =? 8)%Z; repeat split.
Qed.

Lemma quit_effect (caller : tid) (w : World EventLoop) :
  ∃ w' evs,
    quit env caller w = Ret tt w' ∧
    effect [] true (if (threadId_ (state w) =? caller)%Z then 0 else 1) 0
      w w' evs.
Proof.
  rewrite quit_unfold. cbv zeta.
  destruct (threadId_ (state w) =? caller)%Z.
  - eexists _, []. split; [reflexivity |].
    unfold effect. cbn [state trace]. rewrite !app_nil_r, orb_true_r.
    repeat split.
  - destruct (wakeup_effect (mkWorld (set_quit true (state w)) (trace w)))
      as (w' & evs & Hrun & Htr & Hfr & Hp & Hq & Hnw & Hnr & Hmu).
    exists w', evs. split; [exact Hrun |].
    cbn [state trace] in *. unfold effect.
    rewrite app_nil_r in *. rewrite orb_true_r.
    repeat split; try assumption; try apply Hfr.
Qed.

Lemma queueInLoop_effect (caller : tid) (cb : Functor) (w : World EventLoop) :
  ∃ w' evs,
    queueInLoop env caller cb w = Ret tt w' ∧
    effect [cb] false
      (if negb (threadId_ (state w) =? caller)%Z
          || callingPendingFunctors_ (state w) then 1 else 0) 0
      w w' evs.
Proof.
  rewrite queueInLoop_unfold. cbv zeta.
  destruct (negb _ || _).
  - match goal with |- context [wakeup env ?q] =>
      destruct (wakeup_effect q)
        as (w' & evs & Hrun & Htr & Hfr & Hp & Hq & Hnw & Hnr & Hmu) end.
    exists w', ([EvLock; EvPush cb; EvUnlock] ++ evs).
    split; [exact Hrun |].
    cbn [state trace] in *. unfold effect.
    rewrite app_nil_r in Hp. rewrite orb_false_r in *.
    split; [rewrite Htr, <- (assoc_L (++)); reflexivity |].
    split; [repeat split; apply Hfr |].
    split; [exact Hp |]. split; [exact Hq |].
    split; [rewrite wakeup_writes_app, Hnw; reflexivity |].
    split; [rewrite reads_app, Hnr; reflexivity |].
    exact Hmu.
  - eexists _, _. split; [reflexivity |].
    unfold effect. cbn [state trace]. rewrite orb_false_r.
    repeat split.
Qed.

(** Every callback returns, and what it did to the loop is what its text
    says. *)
Lemma call_effect (caller : tid) (f : Functor) :
  ∀ w,
    let inLoop := (threadId_ (state w) =? caller)%Z in
    let calling := callingPendingFunctors_ (state w) in
    ∃ w' evs,
      call env caller f w = Ret tt w' ∧
      effect (enqueues inLoop f) (calls_quit inLoop f)
        (wakeups_of inLoop calling f) 0 w w' evs.
Proof.
  induction f as [id | | | cb _ | cb IH | a IHa b IHb]; intros w inLoop calling;
    cbn [call enqueues calls_quit wakeups_of].
  - eexists _, [EvUser id]. split; [reflexivity |].
    unfold effect. cbn [state trace emit]. rewrite app_nil_r, orb_false_r.
    repeat split.
  - apply quit_effect.
  - apply wakeup_effect.
  - apply queueInLoop_effect.
  - rewrite runInLoop_with_unfold. fold inLoop.
    destruct inLoop eqn:HinLoop.
    + destruct (IH (mkWorld (state w) (trace w ++ [EvInline cb])))
        as (w' & evs & Hrun & Heff).
      cbn [state trace] in Hrun, Heff. fold calling in Heff.
      subst inLoop. rewrite HinLoop in Heff.
      exists w', (EvInline cb :: evs). split; [exact Hrun |].
      apply effect_mark; try reflexivity. exact Heff.
    + destruct (queueInLoop_effect caller cb w) as (w' & evs & Hrun & Heff).
      fold calling in Heff. subst inLoop. rewrite HinLoop in Heff.
      exists w', evs. split; [exact Hrun |]. exact Heff.
  - destruct (IHa w) as (w1 & evs1 & Hrun1 & Heff1).
    destruct (IHb w1) as (w2 & evs2 & Hrun2 & Heff2).
    fold inLoop calling in Heff1.
    assert (Hsame : (threadId_ (state w1) =? caller)%Z = inLoop ∧
                    callingPendingFunctors_ (state w1) = calling).
    { destruct Heff1 as (_ & (_ & Hc & Ht & _) & _).
      subst inLoop calling. rewrite Ht, Hc. split; reflexivity. }
    destruct Hsame as [Hin Hcal]. rewrite Hin, Hcal in Heff2.
    exists w2, (evs1 ++ evs2). unfold bind. rewrite Hrun1.
    split; [exact Hrun2 |].
    replace 0 with (0 + 0) by reflexivity.
    eapply effect_seq; eassumption.
Qed.
End CallbackEffects.

Lemma sum_of_zero {A} (l : list A) : sum_of (fun _ => 0) l = 0.
Proof. induction l as [| x l IH]; [reflexivity | exact IH]. Qed.

(** A [for_each] whose body has a known effect, under a condition on the
    members that callbacks do not disturb. *)
Lemma for_each_effect {A} (body : A → M EventLoop unit)
    (enq : A → list Functor) (q : A → bool) (nw nr : A → nat)
    (I : EventLoop → Prop) :
  (∀ l l', callback_frame l l' → I l → I l') →
  (∀ a w, I (state w) →
     ∃ w' evs, body a w = Ret tt w' ∧
               effect (enq a) (q a) (nw a) (nr a) w w' evs) →
  ∀ l w, I (state w) →
    ∃ w' evs,
      for_each body l w = Ret tt w' ∧
      effect (flat_map enq l) (existsb q l) (sum_of nw l) (sum_of nr l)
        w w' evs.
Proof.
  intros Hframe Hbody.
  induction l as [| a l IH]; intros w HI; cbn [for_each flat_map existsb sum_of fold_right].
  - exists w, []. split; [reflexivity | apply effect_refl].
  - destruct (Hbody a w HI) as (w1 & evs1 & Hrun1 & Heff1).
    assert (HI1 : I (state w1)).
    { apply (Hframe (state w)); [apply Heff1 | exact HI]. }
    destruct (IH w1 HI1) as (w2 & evs2 & Hrun2 & Heff2).
    exists w2, (evs1 ++ evs2). unfold bind. rewrite Hrun1.
    split; [exact Hrun2 |].
    eapply effect_seq; eassumption.
Qed.

(** The events a computation added are determined by its result. *)
Lemma added_events_unique {St} (w w' : World St) (evs1 evs2 : list Event) :
  trace w' = trace w ++ evs1 → trace w' = trace w ++ evs2 → evs1 = evs2.
Proof. intros H1 H2. rewrite H1 in H2. exact (app_inv_head _ _ _ H2). Qed.

Section PassEffects.
Variable env : Env.

Lemma runs_as_frame (caller : tid) (inLoop calling : bool) (l l' : EventLoop) :
  callback_frame l l' → runs_as caller inLoop calling l →
  runs_as caller inLoop calling l'.
Proof.
  intros (_ & Hc & Ht & _) [Hin Hcal]. unfold runs_as.
  rewrite Ht, Hc. split; assumption.
Qed.

Lemma handleEvent_effect (caller : tid) (ch : Channel) (t : Timestamp)
    (w : World EventLoop) :
  let inLoop := (threadId_ (state w) =? caller)%Z in
  let calling := callingPendingFunctors_ (state w) in
  ∃ w' evs,
    handleEvent env caller ch t w = Ret tt w' ∧
    effect (channel_enqueues inLoop ch) (channel_calls_quit inLoop ch)
      (channel_wakeups inLoop calling ch)
      (if is_wakeup_channel ch then 1 else 0) w w' evs.
Proof.
  intros inLoop calling. unfold handleEvent, bind at 1. cbn [emit].
  destruct ch as [| fd cb]; cbn [channel_enqueues channel_calls_quit
                                  channel_wakeups is_wakeup_channel].
  - destruct (handleRead_effect env
                (mkWorld (state w) (trace w ++ [EvHandleEvent WakeupChannel t])))
      as (w' & evs & Hrun & Heff).
    exists w', (EvHandleEvent WakeupChannel t :: evs).
    split; [exact Hrun |]. apply effect_mark; try reflexivity. exact Heff.
  - destruct (call_effect env caller cb
                (mkWorld (state w) (trace w ++ [EvHandleEvent (IoChannel fd cb) t])))
      as (w' & evs & Hrun & Heff).
    exists w', (EvHandleEvent (IoChannel fd cb) t :: evs).
    split; [exact Hrun |]. apply effect_mark; try reflexivity. exact Heff.
Qed.

Lemma dispatch_effect (caller : tid) (chans : list Channel)
    (w : World EventLoop) :
  let inLoop := (threadId_ (state w) =? caller)%Z in
  let calling := callingPendingFunctors_ (state w) in
  ∃ w' evs,
    for_each
      (fun channel =>
         t <- gets pollReturnTime_ ;; handleEvent env caller channel t)
      chans w = Ret tt w' ∧
    effect (flat_map (channel_enqueues inLoop) chans)
      (existsb (channel_calls_quit inLoop) chans)
      (sum_of (channel_wakeups inLoop calling) chans)
      (sum_of (fun ch => if is_wakeup_channel ch then 1 else 0) chans)
      w w' evs.
Proof.
  intros inLoop calling.
  apply (for_each_effect _ _ _ _ _ (runs_as caller inLoop calling)).
  - apply runs_as_frame.
  - intros ch v [Hin Hcal]. unfold bind at 1, gets at 1.
    destruct (handleEvent_effect caller ch (pollReturnTime_ (state v)) v)
      as (v' & evs & Hrun & Heff).
    rewrite Hin, Hcal in Heff. exists v', evs. split; assumption.
  - split; reflexivity.
Qed.

Lemma run_functors_effect (caller : tid) (fs : list Functor)
    (w : World EventLoop) :
  let inLoop := (threadId_ (state w) =? caller)%Z in
  let calling := callingPendingFunctors_ (state w) in
  ∃ w' evs,
    for_each (fun functor => emit (EvFunctor functor) ;; call env caller functor)
      fs w = Ret tt w' ∧
    effect (flat_map (enqueues inLoop) fs) (existsb (calls_quit inLoop) fs)
      (sum_of (wakeups_of inLoop calling) fs) 0 w w' evs.
Proof.
  intros inLoop calling.
  rewrite <- (sum_of_zero fs).
  apply (for_each_effect _ _ _ _ _ (runs_as caller inLoop calling)).
  - apply runs_as_frame.
  - intros f v [Hin Hcal]. unfold bind at 1. cbn [emit].
    destruct (call_effect env caller f
                (mkWorld (state v) (trace v ++ [EvFunctor f])))
      as (v' & evs & Hrun & Heff).
    cbn [state] in Heff. rewrite Hin, Hcal in Heff.
    exists v', (EvFunctor f :: evs). split; [exact Hrun |].
    apply effect_mark; try reflexivity. exact Heff.
  - split; reflexivity.
Qed.

(** [doPendingFunctors] as a whole. *)
Lemma doPendingFunctors_effect (caller : tid) (w : World EventLoop) :
  let inLoop := (threadId_ (state w) =? caller)%Z in
  let fs := pendingFunctors_ (state w) in
  ∃ w' evs,
    doPendingFunctors env caller w = Ret tt w' ∧
    trace w' = trace w ++ evs ∧
    phases evs = EvSwap fs :: map EvFunctor fs ∧
    pendingFunctors_ (state w') = flat_map (enqueues inLoop) fs ∧
    quit_ (state w') = quit_ (state w) || existsb (calls_quit inLoop) fs ∧
    wakeup_writes evs = sum_of (wakeups_of inLoop true) fs ∧
    reads evs = 0 ∧
    mutex_after false evs = Some false ∧
    callingPendingFunctors_ (state w') = false ∧
    threadId_ (state w') = threadId_ (state w).
Proof.
  intros inLoop fs.
  destruct (doPendingFunctors_spec env caller w)
    as (w' & evs & Hrun & Htr & Hph & Hcal & _ & Hthr & _).
  exists w', evs. split; [exact Hrun |]. split; [exact Htr |].
  split; [exact Hph |].
  revert Hrun. unfold doPendingFunctors.
  set (run := for_each _).
  unfold bind, modify, gets, lock, unlock, emit. cbn [state trace].
  change (pendingFunctors_ (set_callingPendingFunctors true (state w))) with fs.
  subst run.
  match goal with |- context [for_each _ fs ?w0] =>
    destruct (run_functors_effect caller fs w0)
      as (w1 & evs1 & Hrun1 & Htr1 & Hfr1 & Hp1 & Hq1 & Hnw1 & Hnr1 & Hmu1) end.
  rewrite Hrun1. intros [= <-]. cbn [state trace] in *.
  assert (Hevs : evs = [EvLock; EvSwap fs; EvUnlock] ++ evs1).
  { apply (added_events_unique w (mkWorld (state w1) (trace w1)));
      [exact Htr |].
    cbn [trace]. rewrite Htr1, <- !(assoc_L (++)). reflexivity. }
  split; [exact Hp1 |]. split; [exact Hq1 |].
  split; [rewrite Hevs, wakeup_writes_app; exact Hnw1 |].
  split; [rewrite Hevs, reads_app; exact Hnr1 |].
  split; [rewrite Hevs; exact Hmu1 |].
  split; [reflexivity | exact Hthr].
Qed.
End PassEffects.

Section PassTheorems.
Variable env : Env.

(** One pass of the loop, in full: what is dispatched, which tasks run,
    what is left in the queue, whether [quit_] is set, and the traffic on
    the wake-up descriptor. *)
Lemma loop_iteration_effect (caller : tid) (w : World EventLoop) :
  let inLoop := (threadId_ (state w) =? caller)%Z in
  let calling := callingPendingFunctors_ (state w) in
  let now := (os_poll env (trace w)).1 in
  let active := (os_poll env (trace w)).2 in
  let queued :=
    pendingFunctors_ (state w) ++ flat_map (channel_enqueues inLoop) active in
  ∃ w' rest,
    loop_iteration env caller w = Ret tt w' ∧
    trace w' = trace w ++ EvPoll kPollTimeMs now active :: rest ∧
    phases rest =
      map (fun ch => EvHandleEvent ch now) active
      ++ EvSwap queued :: map EvFunctor queued ∧
    pendingFunctors_ (state w') = flat_map (enqueues inLoop) queued ∧
    quit_ (state w') =
      quit_ (state w) || existsb (channel_calls_quit inLoop) active
      || existsb (calls_quit inLoop) queued ∧
    wakeup_writes rest =
      sum_of (channel_wakeups inLoop calling) active
      + sum_of (wakeups_of inLoop true) queued ∧
    reads rest = sum_of (fun ch => if is_wakeup_channel ch then 1 else 0) active ∧
    mutex_after false rest = Some false ∧
    callingPendingFunctors_ (state w') = false ∧
    threadId_ (state w') = threadId_ (state w).
Proof.
  intros inLoop calling now active queued.
  unfold loop_iteration.
  set (dispatch := for_each _).
  unfold bind, modify, gets, poll. cbn [state trace].
  subst now active queued.
  destruct (os_poll env (trace w)) as [now active] eqn:Hpoll.
  cbn [fst snd state trace activeChannels_ set_pollReturnTime
       set_activeChannels app].
  subst dispatch.
  match goal with |- context [for_each _ active ?w0] => set (w0' := w0) end.
  destruct (dispatch_effect env caller active w0')
    as (w3 & evs3 & Hrun3 & Htr3 & Hfr3 & Hp3 & Hq3 & Hnw3 & Hnr3 & Hmu3).
  destruct (dispatch_spec env caller active w0')
    as (w3' & evs3' & Hrun3' & Htr3' & Hph3 & _).
  rewrite Hrun3 in Hrun3'. injection Hrun3' as <-.
  assert (evs3' = evs3) as ->
    by (eapply added_events_unique; eassumption).
  rewrite Hrun3.
  destruct (doPendingFunctors_effect env caller w3)
    as (w4 & evs4 & Hrun4 & Htr4 & Hph4 & Hp4 & Hq4 & Hnw4 & Hnr4 & Hmu4
        & Hcal4 & Hthr4).
  destruct Hfr3 as (_ & _ & Hthr3 & _).
  subst w0'. cbn [state trace pendingFunctors_ quit_ threadId_
                  callingPendingFunctors_ pollReturnTime_
                  set_pollReturnTime set_activeChannels] in *.
  fold inLoop calling in Hp3, Hq3, Hnw3.
  rewrite Hthr3 in Hp4, Hq4, Hnw4. fold inLoop in Hp4, Hq4, Hnw4.
  rewrite Hp3 in Hph4, Hp4, Hq4, Hnw4.
  exists w4, (evs3 ++ evs4).
  split; [exact Hrun4 |].
  split; [rewrite Htr4, Htr3, <- !(assoc_L (++)); reflexivity |].
  split; [rewrite phases_app, Hph3, Hph4; reflexivity |].
  split; [exact Hp4 |].
  split; [rewrite Hq4, Hq3; reflexivity |].
  split; [rewrite wakeup_writes_app, Hnw3, Hnw4; reflexivity |].
  split; [rewrite reads_app, Hnr3, Hnr4; lia |].
  split; [rewrite (mutex_after_app evs3 evs4 false false Hmu3); exact Hmu4 |].
  split; [exact Hcal4 | congruence].
Qed.
End PassTheorems.

(** ** The work done in a pass *)

Lemma user_work_app (a b : list Event) :
  user_work (a ++ b) = user_work a ++ user_work b.
Proof. apply flat_map_app. Qed.

Lemma steps_app (a b : list Event) : steps (a ++ b) = steps a ++ steps b.
Proof. apply List.filter_app. Qed.

(** The steps of a history keep its phases and its user work. *)
Lemma phases_steps (tr : list Event) : phases (steps tr) = phases tr.
Proof.
  unfold phases, steps.
  induction tr as [| e tr IH]; [reflexivity |].
  destruct e; cbn [List.filter is_step is_phase is_user orb]; rewrite ?IH;
    reflexivity.
Qed.

Lemma user_work_steps (tr : list Event) : user_work (steps tr) = user_work tr.
Proof.
  unfold user_work, steps.
  induction tr as [| e tr IH]; [reflexivity |].
  destruct e;
    cbn [List.filter is_step is_phase is_user orb flat_map user_id app];
    rewrite ?IH; reflexivity.
Qed.

Lemma user_work_ran (work : list nat) : user_work (map EvUser work) = work.
Proof.
  unfold user_work.
  induction work as [| id work IH]; cbn [map flat_map user_id app];
    [reflexivity | rewrite IH; reflexivity].
Qed.

Lemma user_work_channel_steps (inLoop : bool) (now : Timestamp)
    (chans : list Channel) :
  user_work (flat_map (channel_steps inLoop now) chans)
  = flat_map (channel_work inLoop) chans.
Proof.
  induction chans as [| ch chans IH]; cbn [flat_map]; [reflexivity |].
  rewrite user_work_app, IH. unfold channel_steps.
  change (user_work (?e :: ?l)) with (user_id e ++ user_work l).
  cbn [user_id app]. rewrite user_work_ran. reflexivity.
Qed.

Lemma user_work_functor_steps (inLoop : bool) (fs : list Functor) :
  user_work (flat_map (functor_steps inLoop) fs)
  = flat_map (work_of inLoop) fs.
Proof.
  induction fs as [| f fs IH]; cbn [flat_map]; [reflexivity |].
  rewrite user_work_app, IH. unfold functor_steps.
  change (user_work (?e :: ?l)) with (user_id e ++ user_work l).
  cbn [user_id app]. rewrite user_work_ran. reflexivity.
Qed.

Lemma user_work_pass_steps (inLoop : bool) (it : Iteration) :
  user_work (pass_steps inLoop it) = pass_work inLoop it.
Proof.
  unfold pass_steps, pass_work.
  rewrite !user_work_app, user_work_channel_steps.
  change (user_work (EvSwap ?x :: ?l)) with (user_work l).
  rewrite user_work_functor_steps. reflexivity.
Qed.

Lemma works_seq (m k : M EventLoop unit) (w : World EventLoop)
    (st1 st2 : list Event) :
  works m w st1 →
  (∀ w1, m w = Ret tt w1 → works k w1 st2) →
  works (m ;; k) w (st1 ++ st2).
Proof.
  intros (w1 & evs1 & Hrun1 & Htr1 & Hfr1 & Hw1) Hk.
  destruct (Hk w1 Hrun1) as (w2 & evs2 & Hrun2 & Htr2 & Hfr2 & Hw2).
  exists w2, (evs1 ++ evs2). unfold bind. rewrite Hrun1.
  split; [exact Hrun2 |].
  split; [rewrite Htr2, Htr1, (assoc_L (++)); reflexivity |].
  split; [eapply callback_frame_trans; eassumption |].
  rewrite steps_app, Hw1, Hw2. reflexivity.
Qed.

(** A phase marker in front. *)
Lemma works_mark (e : Event) (run : M EventLoop unit) (w : World EventLoop)
    (st : list Event) :
  is_step e = true →
  works run (mkWorld (state w) (trace w ++ [e])) st →
  works (emit e ;; run) w (e :: st).
Proof.
  intros He (w' & evs & Hrun & Htr & Hfr & Hw).
  exists w', (e :: evs). unfold bind. cbn [emit state trace] in *.
  split; [exact Hrun |].
  split; [rewrite Htr, <- (assoc_L (++)); reflexivity |].
  split; [exact Hfr |].
  unfold steps in *. cbn [List.filter]. rewrite He, Hw. reflexivity.
Qed.

Section Work.
Variable env : Env.

Lemma wakeup_works (w : World EventLoop) : works (wakeup env) w [].
Proof.
  eexists _, _. split; [apply wakeup_unfold |].
  cbn [state trace]. split; [reflexivity |].
  split; [apply callback_frame_refl |].
  destruct (_ =? 8)%Z; reflexivity.
Qed.

Lemma handleRead_works (w : World EventLoop) : works (handleRead env) w [].
Proof.
  eexists _, _. split; [apply handleRead_unfold |].
  cbn [state trace]. split; [reflexivity |].
  split; [apply callback_frame_refl |].
  destruct (_ =? 8)%Z; reflexivity.
Qed.

Lemma quit_works (caller : tid) (w : World EventLoop) :
  works (quit env caller) w [].
Proof.
  unfold works. rewrite quit_unfold. cbv zeta.
  destruct (threadId_ (state w) =? caller)%Z.
  - eexists _, []. split; [reflexivity |]. cbn [state trace].
    rewrite app_nil_r. repeat split.
  - destruct (wakeup_works (mkWorld (set_quit true (state w)) (trace w)))
      as (w' & evs & Hrun & Htr & Hfr & Hw).
    exists w', evs. cbn [state trace] in *.
    repeat split; try assumption; apply Hfr.
Qed.

Lemma queueInLoop_works (caller : tid) (cb : Functor) (w : World EventLoop) :
  works (queueInLoop env caller cb) w [].
Proof.
  unfold works. rewrite queueInLoop_unfold. cbv zeta.
  destruct (negb _ || _).
  - match goal with |- context [wakeup env ?q] =>
      destruct (wakeup_works q) as (w' & evs & Hrun & Htr & Hfr & Hw) end.
    exists w', ([EvLock; EvPush cb; EvUnlock] ++ evs).
    cbn [state trace] in *.
    split; [exact Hrun |].
    split; [rewrite Htr, <- (assoc_L (++)); reflexivity |].
    split; [repeat split; apply Hfr |].
    rewrite steps_app, Hw. reflexivity.
  - eexists _, _. split; [reflexivity |]. cbn [state trace].
    repeat split.
Qed.

(** The user work a callback does is the work its text says, and a
    callback goes through no phase of the loop. *)
Lemma call_works (caller : tid) (f : Functor) :
  ∀ w, works (call env caller f) w
         (map EvUser (work_of (threadId_ (state w) =? caller)%Z f)).
Proof.
  induction f as [id | | | cb _ | cb IH | a IHa b IHb]; intros w;
    cbn [call work_of map].
  - eexists _, [EvUser id]. split; [reflexivity |]. cbn [emit state trace].
    repeat split.
  - apply quit_works.
  - apply wakeup_works.
  - apply queueInLoop_works.
  - unfold works. rewrite runInLoop_with_unfold.
    destruct (threadId_ (state w) =? caller)%Z eqn:HinLoop.
    + destruct (IH (mkWorld (state w) (trace w ++ [EvInline cb])))
        as (w' & evs & Hrun & Htr & Hfr & Hw).
      cbn [state trace] in *. rewrite HinLoop in Hw.
      exists w', (EvInline cb :: evs). split; [exact Hrun |].
      split; [rewrite Htr, <- (assoc_L (++)); reflexivity |].
      split; [exact Hfr | exact Hw].
    + apply queueInLoop_works.
  - rewrite map_app.
    apply works_seq; [apply IHa |].
    intros w1 Hrun1.
    destruct (IHa w) as (w1' & evs1 & Hrun1' & _ & (_ & _ & Ht & _) & _).
    rewrite Hrun1 in Hrun1'. injection Hrun1' as <-.
    rewrite <- Ht. apply IHb.
Qed.

Lemma for_each_works {A} (body : A → M EventLoop unit) (st : A → list Event)
    (I : EventLoop → Prop) :
  (∀ l l', callback_frame l l' → I l → I l') →
  (∀ a w, I (state w) → works (body a) w (st a)) →
  ∀ l w, I (state w) → works (for_each body l) w (flat_map st l).
Proof.
  intros Hframe Hbody.
  induction l as [| a l IH]; intros w HI; cbn [for_each flat_map].
  - exists w, []. rewrite app_nil_r. repeat split.
  - apply works_seq; [apply Hbody; exact HI |].
    intros w1 Hrun1.
    destruct (Hbody a w HI) as (w1' & evs1 & Hrun1' & _ & Hfr & _).
    rewrite Hrun1 in Hrun1'. injection Hrun1' as <-.
    apply IH. exact (Hframe _ _ Hfr HI).
Qed.

(** [handleEvent] on one channel: the marker, then the work of its
    callback. *)
Lemma handleEvent_works (caller : tid) (ch : Channel) (t : Timestamp)
    (w : World EventLoop) :
  works (handleEvent env caller ch t) w
    (channel_steps (threadId_ (state w) =? caller)%Z t ch).
Proof.
  unfold handleEvent, channel_steps.
  apply works_mark; [reflexivity |].
  destruct ch as [| fd cb]; cbn [channel_work map].
  - apply handleRead_works.
  - apply (call_works caller cb (mkWorld (state w) _)).
Qed.

Lemma dispatch_works (caller : tid) (chans : list Channel)
    (w : World EventLoop) :
  works
    (for_each
       (fun channel =>
          t <- gets pollReturnTime_ ;; handleEvent env caller channel t)
       chans)
    w (flat_map (channel_steps (threadId_ (state w) =? caller)%Z
                   (pollReturnTime_ (state w))) chans).
Proof.
  apply (for_each_works _ _
           (fun l => (threadId_ l =? caller)%Z
                     = (threadId_ (state w) =? caller)%Z
                     ∧ pollReturnTime_ l = pollReturnTime_ (state w))).
  - intros l l' (_ & _ & Ht & Hp & _) [Hl Hl']. rewrite Ht, Hp. auto.
  - intros ch v [Hv Hv'].
    destruct (handleEvent_works caller ch (pollReturnTime_ (state v)) v)
      as (v' & evs & Hrun & Hrest).
    rewrite Hv, Hv' in Hrest.
    exists v', evs. split; [exact Hrun | exact Hrest].
  - split; reflexivity.
Qed.

Lemma run_functors_works (caller : tid) (fs : list Functor)
    (w : World EventLoop) :
  works
    (for_each (fun functor => emit (EvFunctor functor) ;; call env caller functor)
       fs)
    w (flat_map (functor_steps (threadId_ (state w) =? caller)%Z) fs).
Proof.
  apply (for_each_works _ _
           (fun l => (threadId_ l =? caller)%Z
                     = (threadId_ (state w) =? caller)%Z)).
  - intros l l' (_ & _ & Ht & _) Hl. rewrite Ht. exact Hl.
  - intros f v Hv. unfold functor_steps.
    apply works_mark; [reflexivity |].
    rewrite <- Hv. apply (call_works caller f (mkWorld (state v) _)).
  - reflexivity.
Qed.
End Work.

Section FullPasses.
Variable env : Env.

(** [doPendingFunctors] takes the queue and runs each task it took. *)
Lemma doPendingFunctors_works (caller : tid) (w : World EventLoop) :
  let inLoop := (threadId_ (state w) =? caller)%Z in
  let fs := pendingFunctors_ (state w) in
  ∃ w' evs,
    doPendingFunctors env caller w = Ret tt w' ∧
    trace w' = trace w ++ evs ∧
    steps evs = EvSwap fs :: flat_map (functor_steps inLoop) fs ∧
    user_work evs = flat_map (work_of inLoop) fs.
Proof.
  intros inLoop fs.
  assert (Hsteps : ∃ w' evs,
             doPendingFunctors env caller w = Ret tt w' ∧
             trace w' = trace w ++ evs ∧
             steps evs = EvSwap fs :: flat_map (functor_steps inLoop) fs).
  { unfold doPendingFunctors.
    set (run := for_each _).
    unfold bind, modify, gets, lock, unlock, emit. cbn [state trace].
    change (pendingFunctors_ (set_callingPendingFunctors true (state w)))
      with fs.
    subst run.
    match goal with |- context [for_each _ fs ?w0] =>
      destruct (run_functors_works env caller fs w0)
        as (w1 & evs1 & Hrun1 & Htr1 & _ & Hw1) end.
    rewrite Hrun1. cbn [state trace threadId_ set_pendingFunctors
                        set_callingPendingFunctors] in *.
    fold inLoop in Hw1.
    eexists _, ([EvLock; EvSwap fs; EvUnlock] ++ evs1).
    split; [reflexivity |]. cbn [trace].
    split; [rewrite Htr1, <- !(assoc_L (++)); reflexivity |].
    rewrite steps_app, Hw1. reflexivity. }
  destruct Hsteps as (w' & evs & Hrun & Htr & Hst).
  exists w', evs. split; [exact Hrun |]. split; [exact Htr |].
  split; [exact Hst |].
  rewrite <- user_work_steps, Hst.
  change (user_work (EvSwap fs :: ?l)) with (user_work l).
  apply user_work_functor_steps.
Qed.

(** One pass, with the user work done in it. *)
Lemma loop_iteration_full (caller : tid) (w : World EventLoop) :
  let inLoop := (threadId_ (state w) =? caller)%Z in
  let now := (os_poll env (trace w)).1 in
  let active := (os_poll env (trace w)).2 in
  let it :=
    mkIteration now active
      (pendingFunctors_ (state w) ++ flat_map (channel_enqueues inLoop) active) in
  ∃ w' rest,
    loop_iteration env caller w = Ret tt w' ∧
    trace w' = trace w ++ EvPoll kPollTimeMs now active :: rest ∧
    EvQuitCheck false :: phases (EvPoll kPollTimeMs now active :: rest)
      = iteration_phases it ∧
    EvQuitCheck false :: steps (EvPoll kPollTimeMs now active :: rest)
      = pass_steps inLoop it ∧
    polls rest = 0 ∧
    user_work rest = pass_work inLoop it ∧
    pendingFunctors_ (state w') = queue_left inLoop it ∧
    quit_ (state w') = quit_ (state w) || pass_calls_quit inLoop it ∧
    looping_ (state w') = looping_ (state w) ∧
    threadId_ (state w') = threadId_ (state w).
Proof.
  intros inLoop now active it.
  destruct (loop_iteration_effect env caller w)
    as (w' & rest & Hrun & Htr & Hph & Hp & Hq & _ & _ & _ & _ & Hthr).
  fold inLoop now active in Htr, Hph, Hp, Hq.
  assert (Hst : EvQuitCheck false :: steps (EvPoll kPollTimeMs now active :: rest)
                = pass_steps inLoop it).
  { (* the same pass, followed through [works] *)
    revert Hrun. unfold loop_iteration.
    set (dispatch := for_each _).
    unfold bind, modify, gets, poll. cbn [state trace].
    pose proof (surjective_pairing (os_poll env (trace w))) as Hpoll.
    fold now active in Hpoll. rewrite Hpoll.
    cbn [state trace activeChannels_ set_pollReturnTime set_activeChannels app].
    subst dispatch.
    match goal with |- context [for_each _ active ?w0] => set (w0' := w0) end.
    destruct (dispatch_works env caller active w0')
      as (w3 & evs3 & Hrun3 & Htr3 & Hfr3 & Hw3).
    destruct (dispatch_effect env caller active w0')
      as (w3' & evs3' & Hrun3' & _ & _ & Hp3 & _).
    rewrite Hrun3 in Hrun3'. injection Hrun3' as <-.
    rewrite Hrun3.
    destruct (doPendingFunctors_works caller w3)
      as (w4 & evs4 & Hrun4 & Htr4 & Hw4 & _).
    rewrite Hrun4. intros [= <-].
    destruct Hfr3 as (_ & _ & Hthr3 & _).
    subst w0'. cbn [state trace threadId_ pendingFunctors_ pollReturnTime_
                    set_pollReturnTime set_activeChannels] in *.
    fold inLoop in Hw3, Hp3. rewrite Hthr3, Hp3 in Hw4. fold inLoop in Hw4.
    assert (Hrest : rest = evs3 ++ evs4).
    { assert (Heq : EvPoll kPollTimeMs now active :: rest
                    = EvPoll kPollTimeMs now active :: evs3 ++ evs4).
      { apply (added_events_unique w w4); [exact Htr |].
        rewrite Htr4, Htr3, <- !(assoc_L (++)). reflexivity. }
      injection Heq as ->. reflexivity. }
    change (steps (EvPoll kPollTimeMs now active :: rest))
      with (EvPoll kPollTimeMs now active :: steps rest).
    rewrite Hrest, steps_app, Hw3, Hw4. reflexivity. }
  exists w', rest. split; [exact Hrun |]. split; [exact Htr |].
  split.
  { unfold iteration_phases, it. cbn [it_now it_active it_functors app].
    change (phases (EvPoll kPollTimeMs now active :: rest))
      with (EvPoll kPollTimeMs now active :: phases rest).
    rewrite Hph. reflexivity. }
  split; [exact Hst |].
  split.
  { rewrite <- polls_phases, Hph, polls_app, polls_handle_events.
    change (polls (EvSwap ?x :: ?y)) with (polls y).
    apply polls_functors. }
  split.
  { rewrite <- user_work_pass_steps, <- Hst.
    change (user_work (EvQuitCheck false :: ?l)) with (user_work l).
    rewrite user_work_steps. reflexivity. }
  split; [exact Hp |].
  split; [rewrite Hq, <- orb_assoc; reflexivity |].
  split; [| exact Hthr].
  destruct (loop_iteration_spec env caller w)
    as (w'' & _ & _ & Hrun' & _ & _ & _ & _ & Hl & _).
  rewrite Hrun in Hrun'. injection Hrun' as <-. exact Hl.
Qed.
End FullPasses.

(** ** The loop, pass by pass *)

Section FullLoop.
Variable env : Env.

(** What the [while] of [loop] has done when it returns or when the
    budget ends: complete passes, each taking the queue left by the one
    before, with the work of its callbacks and tasks done. *)
Lemma while_not_quit_full (caller : tid) (fuel : nat) :
  ∀ w,
    let inLoop := (threadId_ (state w) =? caller)%Z in
    match while_not_quit env fuel caller w with
    | Abort _ => False
    | Ret _ w' | OutOfFuel w' =>
        let last_check :=
          match while_not_quit env fuel caller w with
          | Ret _ _ => [EvQuitCheck true]
          | _ => []
          end in
        ∃ its evs,
          trace w' = trace w ++ evs ∧
          phases evs = flat_map iteration_phases its ++ last_check ∧
          steps evs = flat_map (pass_steps inLoop) its ++ last_check ∧
          poll_answers env (trace w) evs ∧
          passes_chain inLoop (pendingFunctors_ (state w))
            (quit_ (state w')) its ∧
          user_work evs = flat_map (pass_work inLoop) its ∧
          pendingFunctors_ (state w') =
            queue_after inLoop (pendingFunctors_ (state w)) its ∧
          match while_not_quit env fuel caller w with
          | Ret _ _ => length its < fuel ∧ quit_ (state w') = true
          | _ => length its = fuel
          end ∧
          looping_ (state w') = looping_ (state w) ∧
          threadId_ (state w') = threadId_ (state w) ∧
          (its = [] → state w' = state w) ∧
          (its ≠ [] → quit_ (state w) = false)
    end.
Proof.
  induction fuel as [| fuel IH]; intros w inLoop.
  - cbn. exists [], []. rewrite app_nil_r. repeat split; tauto.
  - destruct (quit_ (state w)) eqn:Hq.
    + rewrite while_not_quit_exit by exact Hq.
      exists [], [EvQuitCheck true]. cbn [state trace].
      repeat split; cbn; auto; try tauto; lia.
    + rewrite while_not_quit_continue by exact Hq.
      unfold bind.
      destruct (loop_iteration_full env caller
                  (mkWorld (state w) (trace w ++ [EvQuitCheck false])))
        as (w1 & rest & Hrun & Htr & Hph & Hst & Hno & Hwork & Hleft & Hq1
            & Hl1 & Ht1).
      rewrite Hrun. cbn [state trace] in *.
      fold inLoop in Hwork, Hleft, Hq1, Hph, Hst.
      rewrite Hq in Hq1. cbn [orb] in Hq1.
      set (history := trace w ++ [EvQuitCheck false]) in *.
      set (it := mkIteration (os_poll env history).1 (os_poll env history).2
                   (pendingFunctors_ (state w)
                    ++ flat_map (channel_enqueues inLoop)
                         (os_poll env history).2)) in *.
      set (pass := EvQuitCheck false
                   :: EvPoll kPollTimeMs (it_now it) (it_active it) :: rest).
      assert (Htr1 : trace w1 = trace w ++ pass).
      { rewrite Htr. unfold history, pass.
        rewrite <- (assoc_L (++)). reflexivity. }
      assert (Hpa : poll_answers env (trace w) pass).
      { cbn. split; [exact I |].
        split; [apply surjective_pairing |].
        apply poll_answers_no_poll. exact Hno. }
      assert (Hphp : phases pass = iteration_phases it) by exact Hph.
      assert (Hstp : steps pass = pass_steps inLoop it) by exact Hst.
      assert (Hwp : user_work pass = pass_work inLoop it) by exact Hwork.
      specialize (IH w1). cbv zeta in IH.
      rewrite Ht1 in IH. fold inLoop in IH. rewrite Hleft in IH.
      destruct (while_not_quit env fuel caller w1) as [[] w2 | w2 | w2];
        [| exact IH |];
        destruct IH as (its & evs & Htr2 & Hph2 & Hst2 & Hpa2 & Hch2 & Hw2
                        & Hp2 & Hlen & Hl2 & Ht2 & Hnil & Hcons);
        exists (it :: its), (pass ++ evs);
        (split; [rewrite Htr2, Htr1, (assoc_L (++)); reflexivity |]);
        (split; [rewrite phases_app, Hph2, Hphp; cbn [flat_map];
                 rewrite <- ?(assoc_L (++)), ?app_nil_r; reflexivity |]);
        (split; [rewrite steps_app, Hst2, Hstp; cbn [flat_map];
                 rewrite <- ?(assoc_L (++)), ?app_nil_r; reflexivity |]);
        (split; [apply poll_answers_app;
                 [exact Hpa | rewrite <- Htr1; exact Hpa2] |]);
        (split; [cbn [passes_chain]; split; [reflexivity |];
                 split; [| exact Hch2];
                 rewrite <- Hq1;
                 destruct its as [| it' its'];
                 [rewrite (Hnil eq_refl); reflexivity
                 | apply Hcons; discriminate] |]);
        (split; [rewrite user_work_app, Hwp, Hw2; reflexivity |]);
        (split; [exact Hp2 |]);
        (split; [cbn [length]; first [lia | split; [lia | tauto]] |]);
        (split; [congruence |]);
        (split; [congruence |]);
        (split; [discriminate | reflexivity]).
Qed.

(** C4: called on the owning thread of a loop that is not looping,
    [loop] never ends the process, and within any budget of loop heads
    it has either returned or is still looping.  What it did between its
    two log lines is a sequence of complete passes followed, when it
    returned, by the one evaluation of [quit_] that found it set.  Each
    pass is, in this order and with nothing of the next begun: the
    evaluation of [quit_] (unset); the poll with the default timeout;
    for each channel the poller returned, in the poller's order,
    [handleEvent] with the poller's timestamp and, before the next
    channel is touched, the user work of that channel's callback; then
    the swap of the task queue; then each task taken, in order, with its
    user work done before the next task is invoked.  The tasks taken are
    those queued when the pass began followed by those its channel
    callbacks queued; what they queue is the queue left for the next
    pass, and [quit] is called in the last pass before the return and in
    none before it.  On return [looping_] is cleared.  A loop head that
    finds [quit_] set leaves the [while] at once. *)
Theorem loop_passes_then_exit_at_loop_head
    (fuel : nat) (caller : tid) (w : World EventLoop) :
  caller = threadId_ (state w) →
  looping_ (state w) = false →
  let started := trace w ++ [EvLog LvInfo "EventLoop %p start looping \n"] in
  let pending := pendingFunctors_ (state w) in
  match loop env fuel caller w with
  | Ret _ w' =>
      ∃ its evs,
        trace w' =
          started ++ evs ++ [EvLog LvInfo "EventLoop %p stop looping. \n"] ∧
        phases evs = flat_map iteration_phases its ++ [EvQuitCheck true] ∧
        steps evs = flat_map (pass_steps true) its ++ [EvQuitCheck true] ∧
        poll_answers env started evs ∧
        passes_chain true pending true its ∧
        user_work evs = flat_map (pass_work true) its ∧
        pendingFunctors_ (state w') = queue_after true pending its ∧
        its ≠ [] ∧
        length its < fuel ∧
        quit_ (state w') = true ∧
        looping_ (state w') = false
  | OutOfFuel w' =>
      ∃ its evs,
        trace w' = started ++ evs ∧
        phases evs = flat_map iteration_phases its ∧
        steps evs = flat_map (pass_steps true) its ∧
        poll_answers env started evs ∧
        passes_chain true pending (quit_ (state w')) its ∧
        user_work evs = flat_map (pass_work true) its ∧
        pendingFunctors_ (state w') = queue_after true pending its ∧
        length its = fuel ∧
        looping_ (state w') = true
  | Abort _ => False
  end
  ∧ ∀ k v, quit_ (state v) = true →
      while_not_quit env (S k) caller v =
        Ret tt (mkWorld (state v) (trace v ++ [EvQuitCheck true])).
Proof.
  intros Howner _ started pending.
  split; [| intros k v Hq; apply while_not_quit_exit; exact Hq].
  rewrite loop_unfold. fold started.
  pose proof (while_not_quit_full caller fuel
                (mkWorld (set_quit false (set_looping true (state w))) started))
    as Hwhile.
  cbv zeta in Hwhile.
  cbn [state trace threadId_ pendingFunctors_ set_quit set_looping looping_
       quit_] in Hwhile.
  rewrite <- Howner, Z.eqb_refl in Hwhile. fold pending in Hwhile.
  destruct (while_not_quit env fuel caller _) as [[] w1 | w1 | w1].
  - destruct Hwhile as (its & evs & Htr & Hph & Hst & Hpa & Hch & Hwk & Hp
                        & [Hlen Hq] & Hl & _ & Hnil & _).
    exists its, evs. cbn [state trace pendingFunctors_ quit_ looping_
                          set_looping].
    rewrite Hq in Hch.
    split; [rewrite Htr, <- (assoc_L (++)); reflexivity |].
    repeat (split; [assumption |]).
    split; [| repeat split; assumption].
    intros ->. specialize (Hnil eq_refl).
    rewrite Hnil in Hq. discriminate Hq.
  - exact Hwhile.
  - destruct Hwhile as (its & evs & Htr & Hph & Hst & Hpa & Hch & Hwk & Hp
                        & Hlen & Hl & _).
    exists its, evs. rewrite app_nil_r in Hph, Hst.
    repeat (split; [assumption |]). exact Hl.
Qed.
End FullLoop.

Lemma loop_passes_then_exit_at_loop_head_witness :
  1%Z = threadId_ (state loop0) ∧
  looping_ (state loop0) = false ∧
  ∃ w' its,
    loop env_quit 3 1 loop0 = Ret tt w' ∧
    its = [mkIteration 1000 [WakeupChannel; quitting_channel] [FUser 7]] ∧
    phases (trace w') = flat_map iteration_phases its ++ [EvQuitCheck true] ∧
    steps (trace w') = flat_map (pass_steps true) its ++ [EvQuitCheck true] ∧
    user_work (trace w') = [7] ∧
    passes_chain true [] true its ∧
    pendingFunctors_ (state w') = [] ∧
    looping_ (state w') = false.
Proof.
  pose proof (loop_passes_then_exit_at_loop_head env_quit 3 1 loop0
                eq_refl eq_refl) as [Hloop _].
  split; [reflexivity |]. split; [reflexivity |].
  destruct (loop env_quit 3 1 loop0) as [[] w' | w' | w'] eqn:Hrun.
  - exists w'. eexists. split; [reflexivity |]. split; [reflexivity |].
    vm_compute in Hrun. injection Hrun as <-.
    repeat split; vm_compute; reflexivity.
  - destruct Hloop.
  - vm_compute in Hrun. discriminate Hrun.
Defined.

(** ** Properties of whole runs *)

Section RunProperties.
Variable env : Env.

(** A property of histories that holds of the empty history, of a quit
    check, of every pass, and of concatenations, holds of what the
    [while] of [loop] adds. *)
Lemma while_not_quit_events (P : list Event → Prop) (caller : tid) :
  P [] →
  (∀ a b, P a → P b → P (a ++ b)) →
  (∀ b, P [EvQuitCheck b]) →
  (∀ w, ∃ w' evs, loop_iteration env caller w = Ret tt w' ∧
                  trace w' = trace w ++ evs ∧ P evs) →
  ∀ fuel w,
    match while_not_quit env fuel caller w with
    | Ret _ w' | OutOfFuel w' => ∃ evs, trace w' = trace w ++ evs ∧ P evs
    | Abort _ => False
    end.
Proof.
  intros Hnil Happ Hcheck Hpass.
  induction fuel as [| fuel IH]; intros w.
  - cbn. exists []. rewrite app_nil_r. auto.
  - destruct (quit_ (state w)) eqn:Hq.
    + rewrite while_not_quit_exit by exact Hq.
      exists [EvQuitCheck true]. auto.
    + rewrite while_not_quit_continue by exact Hq. unfold bind.
      destruct (Hpass (mkWorld (state w) (trace w ++ [EvQuitCheck false])))
        as (w1 & evs1 & Hrun & Htr1 & HP1).
      rewrite Hrun. cbn [trace] in Htr1.
      specialize (IH w1).
      destruct (while_not_quit env fuel caller w1) as [[] w2 | w2 | w2];
        [| exact IH |];
        destruct IH as (evs2 & Htr2 & HP2);
        exists ([EvQuitCheck false] ++ evs1 ++ evs2);
        (split; [rewrite Htr2, Htr1, <- !(assoc_L (++)); reflexivity |]);
        auto.
Qed.

Lemma loop_events (P : list Event → Prop) (caller : tid) :
  P [] →
  (∀ a b, P a → P b → P (a ++ b)) →
  (∀ b, P [EvQuitCheck b]) →
  (∀ lvl fmt, P [EvLog lvl fmt]) →
  (∀ w, ∃ w' evs, loop_iteration env caller w = Ret tt w' ∧
                  trace w' = trace w ++ evs ∧ P evs) →
  ∀ fuel w,
    match loop env fuel caller w with
    | Ret _ w' | OutOfFuel w' => ∃ evs, trace w' = trace w ++ evs ∧ P evs
    | Abort _ => False
    end.
Proof.
  intros Hnil Happ Hcheck Hlog Hpass fuel w.
  rewrite loop_unfold.
  match goal with |- context [while_not_quit env fuel caller ?w0] =>
    pose proof (while_not_quit_events P caller Hnil Happ Hcheck Hpass fuel w0)
      as Hwhile;
    destruct (while_not_quit env fuel caller w0) as [[] w1 | w1 | w1] end;
    [| exact Hwhile |]; destruct Hwhile as (evs & Htr & HP);
    cbn [state trace] in *.
  - exists ([EvLog LvInfo "EventLoop %p start looping \n"] ++ evs
            ++ [EvLog LvInfo "EventLoop %p stop looping. \n"]).
    split; [rewrite Htr, <- !(assoc_L (++)); reflexivity | auto].
  - exists ([EvLog LvInfo "EventLoop %p start looping \n"] ++ evs).
    split; [rewrite Htr, <- !(assoc_L (++)); reflexivity | auto].
Qed.

(** X1: when, in the first pass of [loop], a callback of a channel the
    poller reported or a task of the queue calls [quit], [loop] still
    completes that pass (every reported channel is dispatched and every
    task queued by then is run) and returns at the next loop head, with
    [looping_] cleared. *)
Theorem quit_during_first_pass_ends_loop_after_it
    (fuel : nat) (caller : tid) (w : World EventLoop) :
  let inLoop := (threadId_ (state w) =? caller)%Z in
  let started :=
    trace w ++ [EvLog LvInfo "EventLoop %p start looping \n";
                EvQuitCheck false] in
  let now := (os_poll env started).1 in
  let active := (os_poll env started).2 in
  let queued :=
    pendingFunctors_ (state w) ++ flat_map (channel_enqueues inLoop) active in
  existsb (channel_calls_quit inLoop) active
  || existsb (calls_quit inLoop) queued = true →
  ∃ w' evs,
    loop env (S (S fuel)) caller w = Ret tt w' ∧
    trace w' = trace w ++ evs ∧
    phases evs =
      iteration_phases (mkIteration now active queued) ++ [EvQuitCheck true] ∧
    quit_ (state w') = true ∧
    looping_ (state w') = false.
Proof.
  intros inLoop started now active queued Hquits.
  rewrite loop_unfold.
  rewrite while_not_quit_continue by reflexivity.
  cbn [state trace]. rewrite <- (assoc_L (++)). cbn [app]. fold started.
  unfold bind.
  match goal with |- context [loop_iteration env caller ?w0] =>
    destruct (loop_iteration_effect env caller w0)
      as (w1 & rest & Hrun & Htr & Hph & _ & Hq & _) end.
  cbn [state trace threadId_ pendingFunctors_ quit_ set_quit set_looping] in *.
  fold inLoop now active queued in Htr, Hph, Hq.
  rewrite Hrun.
  assert (Hq1 : quit_ (state w1) = true).
  { rewrite Hq. cbn [orb]. exact Hquits. }
  rewrite while_not_quit_exit by exact Hq1. cbn [state trace].
  eexists _, _. split; [reflexivity |].
  cbn [state trace]. rewrite Htr.
  split.
  { unfold started. rewrite <- !(assoc_L (++)). cbn [app]. reflexivity. }
  split; [| split; [exact Hq1 | reflexivity]].
  match goal with |- phases (?a :: ?b :: ?c :: ?r) = _ =>
    change (phases (a :: b :: c :: r)) with (b :: c :: phases r) end.
  rewrite !phases_app, Hph. unfold iteration_phases.
  cbn [it_now it_active it_functors phases List.filter is_phase app].
  rewrite <- !(assoc_L (++)). reflexivity.
Qed.

Lemma loop_polls_at_least_once (fuel : nat) (caller : tid) (w : World EventLoop) :
  match loop env (S fuel) caller w with
  | Ret _ w' | OutOfFuel w' => polls (trace w') > polls (trace w)
  | Abort _ => False
  end.
Proof.
  rewrite loop_unfold.
  rewrite while_not_quit_continue by reflexivity. unfold bind.
  match goal with |- context [loop_iteration env caller ?w0] =>
    destruct (loop_iteration_effect env caller w0)
      as (w1 & rest & Hrun & Htr & _) end.
  rewrite Hrun. cbn [state trace] in Htr.
  assert (Hpolls : polls (trace w1) > polls (trace w)).
  { rewrite Htr, !polls_app.
    change (polls (EvPoll ?a ?b ?c :: ?r)) with (S (polls r)). lia. }
  pose proof (while_not_quit_spec env caller fuel w1) as Hwhile.
  destruct (while_not_quit env fuel caller w1) as [[] w2 | w2 | w2];
    [| exact Hwhile |].
  - destruct Hwhile as (its & evs & Htr2 & _).
    cbn [trace]. rewrite Htr2, !polls_app. lia.
  - destruct Hwhile as (its & evs & Htr2 & _).
    rewrite Htr2, !polls_app. lia.
Qed.

(** X2: a [quit()] issued before [loop()] is called does not stop the
    loop: [quit] sets [quit_], but [loop] clears it on entry and asks the
    poller at least once. *)
Theorem quit_before_loop_is_forgotten
    (fuel : nat) (quitter caller : tid) (w : World EventLoop) :
  ∃ w1,
    quit env quitter w = Ret tt w1 ∧
    quit_ (state w1) = true ∧
    match loop env (S fuel) caller w1 with
    | Ret _ w' | OutOfFuel w' => polls (trace w') > polls (trace w1)
    | Abort _ => False
    end.
Proof.
  destruct (quit_effect env quitter w) as (w1 & evs & Hrun & _ & _ & _ & Hq & _).
  exists w1. split; [exact Hrun |].
  split; [rewrite Hq; apply orb_true_r |].
  apply loop_polls_at_least_once.
Qed.
End RunProperties.

Lemma quit_during_first_pass_ends_loop_after_it_witness :
  ∃ w', loop env_quit 2 1 loop0 = Ret tt w' ∧
        quit_ (state w') = true ∧ looping_ (state w') = false.
Proof.
  destruct (quit_during_first_pass_ends_loop_after_it env_quit 0 1 loop0)
    as (w' & evs & Hrun & _ & _ & Hq & Hl).
  - vm_compute. reflexivity.
  - exists w'. auto.
Defined.

Lemma sum_of_app {A} (f : A → nat) (a b : list A) :
  sum_of f (a ++ b) = sum_of f a + sum_of f b.
Proof.
  unfold sum_of.
  induction a as [| x a IH]; cbn [app fold_right]; [reflexivity |].
  rewrite IH. lia.
Qed.

Lemma flat_map_singleton {A B} (f : A → B) (l : list A) :
  flat_map (fun x => [f x]) l = map f l.
Proof.
  induction l as [| x l IH]; cbn [flat_map map app]; [reflexivity |].
  rewrite IH. reflexivity.
Qed.

Section QueueOrder.
Variable env : Env.

(** X3: tasks handed to [queueInLoop], by whatever threads, are appended
    behind the tasks already queued in the order of the calls, and none
    of them is run by these calls.  The next [doPendingFunctors] takes
    exactly this queue and runs its tasks in that order, first queued,
    first run: each task is invoked and does its user work before the
    next is invoked, and the queue left holds what these tasks queued,
    nothing of what was taken. *)
Theorem queued_tasks_run_in_queue_order
    (caller : tid) (requests : list (tid * Functor)) (w : World EventLoop) :
  let queue := pendingFunctors_ (state w) ++ map snd requests in
  let inLoop := (threadId_ (state w) =? caller)%Z in
  ∃ w1 evs1,
    queue_all env requests w = Ret tt w1 ∧
    trace w1 = trace w ++ evs1 ∧
    user_work evs1 = [] ∧
    pendingFunctors_ (state w1) = queue ∧
    ∃ w2 evs,
      doPendingFunctors env caller w1 = Ret tt w2 ∧
      trace w2 = trace w1 ++ evs ∧
      phases evs = EvSwap queue :: map EvFunctor queue ∧
      steps evs = EvSwap queue :: flat_map (functor_steps inLoop) queue ∧
      user_work evs = flat_map (work_of inLoop) queue ∧
      pendingFunctors_ (state w2) = flat_map (enqueues inLoop) queue.
Proof.
  intros queue inLoop.
  destruct (for_each_effect
              (fun r : tid * Functor => queueInLoop env r.1 r.2)
              (fun r => [r.2]) (fun _ => false)
              (fun r => if negb (threadId_ (state w) =? r.1)%Z
                           || callingPendingFunctors_ (state w)
                        then 1 else 0)
              (fun _ => 0)
              (fun l => threadId_ l = threadId_ (state w) ∧
                        callingPendingFunctors_ l
                        = callingPendingFunctors_ (state w)))
    with (l := requests) (w := w)
    as (w1 & evs1 & Hrun1 & Htr1 & (_ & _ & Hthr & _) & Hp1 & _).
  - intros l l' (_ & Hc & Ht & _) [Hl1 Hl2]. split; congruence.
  - intros r v [Ht Hc].
    destruct (queueInLoop_effect env r.1 r.2 v) as (v' & evs & Hrun & Heff).
    rewrite Ht, Hc in Heff. exists v', evs. split; assumption.
  - split; reflexivity.
  - destruct (for_each_works
                (fun r : tid * Functor => queueInLoop env r.1 r.2)
                (fun _ => []) (fun _ => True)
                (fun _ _ _ _ => I)
                (fun r v _ => queueInLoop_works env r.1 r.2 v)
                requests w I)
      as (w1' & evs1' & Hrun1' & Htr1' & _ & Hsteps1).
    rewrite Hrun1 in Hrun1'. injection Hrun1' as <-.
    rewrite <- (added_events_unique _ _ _ _ Htr1 Htr1') in Hsteps1.
    exists w1, evs1. split; [exact Hrun1 |].
    split; [exact Htr1 |].
    split.
    { rewrite <- user_work_steps, Hsteps1. clear.
      induction requests; [reflexivity | assumption]. }
    assert (Hqueue : pendingFunctors_ (state w1) = queue).
    { rewrite Hp1. unfold queue. rewrite flat_map_singleton. reflexivity. }
    split; [exact Hqueue |].
    destruct (doPendingFunctors_effect env caller w1)
      as (w2 & evs & Hrun & Htr & Hph & Hleft & _).
    destruct (doPendingFunctors_works env caller w1)
      as (w2' & evs' & Hrun' & Htr' & Hsteps & Hwork).
    rewrite Hrun in Hrun'. injection Hrun' as <-.
    rewrite <- (added_events_unique _ _ _ _ Htr Htr') in Hsteps, Hwork.
    rewrite Hqueue in Hph.
    rewrite Hqueue, Hthr in Hleft, Hsteps, Hwork.
    exists w2, evs. auto 7.
Qed.

(** X4: [doPendingFunctors] invokes exactly the tasks that were in the
    queue when it took it, each once and in queue order; the tasks they
    queue meanwhile are not run by this call but are left in the queue,
    in the order they were queued, and the flag
    [callingPendingFunctors_] is cleared at the end. *)
Theorem deferred_tasks_run_once_and_requeue
    (caller : tid) (w : World EventLoop) :
  let inLoop := (threadId_ (state w) =? caller)%Z in
  let taken := pendingFunctors_ (state w) in
  ∃ w' evs,
    doPendingFunctors env caller w = Ret tt w' ∧
    trace w' = trace w ++ evs ∧
    phases evs = EvSwap taken :: map EvFunctor taken ∧
    pendingFunctors_ (state w') = flat_map (enqueues inLoop) taken ∧
    callingPendingFunctors_ (state w') = false.
Proof.
  intros inLoop taken.
  destruct (doPendingFunctors_effect env caller w)
    as (w' & evs & Hrun & Htr & Hph & Hp & _ & _ & _ & _ & Hcal & _).
  exists w', evs. auto.
Qed.

(** X5: tasks queued while the deferred tasks of one pass run are taken
    by the next pass and run there, ahead of whatever the channel
    callbacks of that next pass queue. *)
Theorem requeued_tasks_run_in_next_pass (caller : tid) (w : World EventLoop) :
  let inLoop := (threadId_ (state w) =? caller)%Z in
  let active1 := (os_poll env (trace w)).2 in
  let taken1 :=
    pendingFunctors_ (state w) ++ flat_map (channel_enqueues inLoop) active1 in
  let left := flat_map (enqueues inLoop) taken1 in
  ∃ w1 w2 rest2,
    loop_iteration env caller w = Ret tt w1 ∧
    pendingFunctors_ (state w1) = left ∧
    loop_iteration env caller w1 = Ret tt w2 ∧
    let now2 := (os_poll env (trace w1)).1 in
    let active2 := (os_poll env (trace w1)).2 in
    let taken2 := left ++ flat_map (channel_enqueues inLoop) active2 in
    trace w2 = trace w1 ++ EvPoll kPollTimeMs now2 active2 :: rest2 ∧
    phases rest2 =
      map (fun ch => EvHandleEvent ch now2) active2
      ++ EvSwap taken2 :: map EvFunctor taken2.
Proof.
  intros inLoop active1 taken1 left.
  destruct (loop_iteration_effect env caller w)
    as (w1 & rest1 & Hrun1 & _ & _ & Hp1 & _ & _ & _ & _ & _ & Hthr1).
  destruct (loop_iteration_effect env caller w1)
    as (w2 & rest2 & Hrun2 & Htr2 & Hph2 & _).
  fold inLoop active1 taken1 left in Hp1.
  rewrite Hthr1, Hp1 in Hph2. fold inLoop in Hph2.
  exists w1, w2, rest2. auto.
Qed.
End QueueOrder.

Section Discipline.
Variable env : Env.

Lemma pass_holds_mutex_only_for_queue (caller : tid) (w : World EventLoop) :
  ∃ w' evs,
    loop_iteration env caller w = Ret tt w' ∧
    trace w' = trace w ++ evs ∧
    mutex_after false evs = Some false.
Proof.
  destruct (loop_iteration_effect env caller w)
    as (w' & rest & Hrun & Htr & _ & _ & _ & _ & _ & Hmu & _).
  eexists _, _. split; [exact Hrun |]. split; [exact Htr |]. exact Hmu.
Qed.

(** X6: in every run of [loop], and in every callback run by any thread,
    the mutex of the task queue is taken only when free, released only
    when held, and held only across the append to the queue or the swap
    of the queue: no callback, system call, poll or log line happens
    while it is held, and the queue is never touched without it.  The
    mutex is free whenever [loop] is at a loop head or has returned. *)
Theorem mutex_held_only_across_queue_access
    (fuel : nat) (caller : tid) (w : World EventLoop) :
  match loop env fuel caller w with
  | Ret _ w' | OutOfFuel w' =>
      ∃ evs, trace w' = trace w ++ evs ∧ mutex_after false evs = Some false
  | Abort _ => False
  end
  ∧ ∀ f : Functor,
      ∃ w' evs,
        call env caller f w = Ret tt w' ∧
        trace w' = trace w ++ evs ∧
        mutex_after false evs = Some false.
Proof.
  split.
  - apply (loop_events env (fun evs => mutex_after false evs = Some false)).
    + reflexivity.
    + intros a b Ha Hb. rewrite (mutex_after_app a b false false Ha). exact Hb.
    + reflexivity.
    + reflexivity.
    + apply pass_holds_mutex_only_for_queue.
  - intros f.
    destruct (call_effect env caller f w)
      as (w' & evs & Hrun & Htr & _ & _ & _ & _ & _ & Hmu).
    exists w', evs. auto.
Qed.

(** X7: a callback writes the wake-up descriptor once for every
    [wakeup()] it calls, once for every [quit()] it calls off the owning
    thread, once for every [queueInLoop] it calls off the owning thread
    or during the deferred-task phase (a [runInLoop] off the owning
    thread being such a [queueInLoop]), and at no other time; it never
    reads the descriptor. *)
Theorem callback_writes_descriptor_once_per_wakeup
    (caller : tid) (f : Functor) (w : World EventLoop) :
  let inLoop := (threadId_ (state w) =? caller)%Z in
  let calling := callingPendingFunctors_ (state w) in
  ∃ w' evs,
    call env caller f w = Ret tt w' ∧
    trace w' = trace w ++ evs ∧
    wakeup_writes evs = wakeups_of inLoop calling f ∧
    reads evs = 0.
Proof.
  intros inLoop calling.
  destruct (call_effect env caller f w)
    as (w' & evs & Hrun & Htr & _ & _ & _ & Hnw & Hnr & _).
  exists w', evs. auto.
Qed.

End Discipline.

Section LifetimeRoundTrip.
Variable env : Env.

End LifetimeRoundTrip.


(** * Further properties of Thread *)

(** ** Integers and their decimal form *)

Lemma wrap_int_range (n : Z) : (- 2 ^ 31 ≤ wrap_int n < 2 ^ 31)%Z.
Proof.
  unfold wrap_int.
  pose proof (Z.mod_pos_bound (n + 2 ^ 31) (2 ^ 32)) as Hm. lia.
Qed.

Lemma wrap_int_add (a b : Z) : wrap_int (wrap_int a + b) = wrap_int (a + b).
Proof.
  unfold wrap_int. f_equal.
  replace ((a + 2 ^ 31) mod 2 ^ 32 - 2 ^ 31 + b + 2 ^ 31)%Z
    with ((a + 2 ^ 31) mod 2 ^ 32 + b)%Z by ring.
  rewrite Zplus_mod_idemp_l. f_equal. ring.
Qed.

Lemma wrap_int_distinct (n i j : Z) :
  (0 ≤ i < j)%Z → (j - i < 2 ^ 32)%Z → wrap_int (n + i) ≠ wrap_int (n + j).
Proof.
  intros Hij Hclose Heq. unfold wrap_int in Heq.
  assert (Hmod : ((n + i + 2 ^ 31) mod 2 ^ 32 = (n + j + 2 ^ 31) mod 2 ^ 32)%Z)
    by lia.
  pose proof (Z.div_mod (n + i + 2 ^ 31) (2 ^ 32)) as Hi.
  pose proof (Z.div_mod (n + j + 2 ^ 31) (2 ^ 32)) as Hj.
  set (qi := ((n + i + 2 ^ 31) / 2 ^ 32)%Z) in *.
  set (qj := ((n + j + 2 ^ 31) / 2 ^ 32)%Z) in *.
  assert (Hdiff : (j - i = 2 ^ 32 * (qj - qi))%Z) by lia.
  assert (Hq : (qj - qi ≤ 0 ∨ 1 ≤ qj - qi)%Z) by lia.
  destruct Hq as [Hq | Hq]; nia.
Qed.

Lemma string_length_app (s1 s2 : string) :
  String.length (s1 ++ s2) = String.length s1 + String.length s2.
Proof.
  induction s1 as [| c s1 IH]; [reflexivity |].
  change (S (String.length (s1 ++ s2)) = S (String.length s1) + String.length s2).
  rewrite IH. reflexivity.
Qed.

Lemma substring_whole (s : string) :
  ∀ n, String.length s ≤ n → substring 0 n s = s.
Proof.
  induction s as [| c s IH]; intros n Hn.
  - destruct n; reflexivity.
  - destruct n as [| n]; cbn in Hn; [lia |].
    cbn. rewrite IH by lia. reflexivity.
Qed.

Lemma digits_length (fuel : nat) :
  ∀ n, String.length (digits fuel n) ≤ fuel.
Proof.
  induction fuel as [| fuel IH]; intros n; cbn [digits]; [cbn; lia |].
  rewrite string_length_app. cbn [String.length].
  destruct (n <? 10)%Z; [cbn; lia |].
  specialize (IH (n / 10)%Z). lia.
Qed.

Lemma format_d_length (n : Z) : String.length (format_d n) ≤ 11.
Proof.
  unfold format_d. destruct (n <? 0)%Z.
  - cbn [String.length]. pose proof (digits_length 10 (- n)). lia.
  - pose proof (digits_length 10 n). lia.
Qed.

Lemma digits_value_snoc (s : string) (c : ascii) :
  ∀ acc,
    digits_value acc (s ++ String c "") =
      (10 * digits_value acc s + (Z.of_nat (nat_of_ascii c) - 48))%Z.
Proof.
  induction s as [| c' s IH]; intros acc; cbn; [reflexivity | apply IH].
Qed.

Lemma digit_char_value (d : Z) :
  (0 ≤ d < 10)%Z → (Z.of_nat (nat_of_ascii (digit_char d)) - 48)%Z = d.
Proof.
  intros Hd. unfold digit_char.
  rewrite nat_ascii_embedding by lia. lia.
Qed.

(** Reading the digits back gives the number. *)
Lemma digits_value_digits (fuel : nat) :
  ∀ n, (0 ≤ n < 10 ^ Z.of_nat fuel)%Z → digits_value 0 (digits fuel n) = n.
Proof.
  induction fuel as [| fuel IH]; intros n Hn.
  - cbn in Hn. cbn. lia.
  - cbn [digits]. rewrite digits_value_snoc.
    pose proof (Z.mod_pos_bound n 10) as Hmod.
    rewrite digit_char_value by lia.
    pose proof (Z.div_mod n 10) as Hdm.
    destruct (Z.ltb_spec n 10) as [Hsmall | Hbig].
    + cbn [digits_value append]. rewrite Z.mod_small by lia. lia.
    + rewrite IH; [lia |].
      rewrite Nat2Z.inj_succ, Z.pow_succ_r in Hn by lia.
      split; [apply Z.div_pos; lia |].
      apply Z.div_lt_upper_bound; lia.
Qed.

Lemma digit_char_not_minus (d : Z) :
  (0 ≤ d < 10)%Z → digit_char d ≠ "-"%char.
Proof.
  intros Hd Heq.
  pose proof (digit_char_value d Hd) as Hv. rewrite Heq in Hv.
  change (Z.of_nat (nat_of_ascii "-") - 48)%Z with (-3)%Z in Hv. lia.
Qed.

Lemma digits_no_minus (fuel : nat) :
  ∀ n r, digits fuel n ≠ String "-" r.
Proof.
  induction fuel as [| fuel IH]; intros n r; cbn [digits]; [discriminate |].
  pose proof (Z.mod_pos_bound n 10) as Hmod.
  destruct (n <? 10)%Z.
  - cbn. intros [= Hc _]. apply (digit_char_not_minus (n mod 10)); [lia | exact Hc].
  - destruct (digits fuel (n / 10)) as [| c s] eqn:Hd.
    + cbn. intros [= Hc _].
      apply (digit_char_not_minus (n mod 10)); [lia | exact Hc].
    + cbn. intros [= Hc _]. subst c. exact (IH _ _ Hd).
Qed.

(** Different [int]s print differently. *)
Lemma format_d_inj (a b : Z) :
  (- 10 ^ 10 < a < 10 ^ 10)%Z → (- 10 ^ 10 < b < 10 ^ 10)%Z →
  format_d a = format_d b → a = b.
Proof.
  intros Ha Hb. unfold format_d.
  destruct (Z.ltb_spec a 0) as [Han | Hap];
    destruct (Z.ltb_spec b 0) as [Hbn | Hbp]; intros Heq.
  - assert (Hds : digits 10 (- a) = digits 10 (- b)) by congruence.
    apply (f_equal (digits_value 0)) in Hds.
    rewrite !digits_value_digits in Hds by (cbn; lia). lia.
  - symmetry in Heq. destruct (digits_no_minus _ _ _ Heq).
  - destruct (digits_no_minus _ _ _ Heq).
  - apply (f_equal (digits_value 0)) in Heq.
    rewrite !digits_value_digits in Heq by (cbn; lia). exact Heq.
Qed.

Lemma snprintf_Thread_fits (num : Z) :
  snprintf_Thread 32 num = ("Thread" ++ format_d num)%string.
Proof.
  unfold snprintf_Thread. apply substring_whole.
  rewrite string_length_app. pose proof (format_d_length num). cbn. lia.
Qed.

(** ** Names of threads *)

Lemma Thread_ctor_name (name : string) (numCreated : Z) :
  (Thread_ctor name numCreated).2 = wrap_int (numCreated + 1) ∧
  name_ (Thread_ctor name numCreated).1 =
    (if String.eqb name ""
     then ("Thread" ++ format_d (wrap_int (numCreated + 1)))%string
     else name).
Proof.
  unfold Thread_ctor, setDefaultName. cbn [fst snd name_].
  split; [reflexivity |].
  destruct (String.eqb name ""); cbn [name_]; [| reflexivity].
  apply snprintf_Thread_fits.
Qed.

(** X10: a constructed [Thread] is not started, not joined and has
    [tid_] 0; the counter [numCreated_] is incremented by every
    construction, named or not; a non-empty name is kept, an empty one
    becomes ["Thread"] followed by the new value of the counter in
    decimal, which always fits the 32-byte buffer without truncation; so
    no thread has an empty name. *)
Theorem thread_name_after_construction (name : string) (numCreated : Z) :
  let th := (Thread_ctor name numCreated).1 in
  let num := (Thread_ctor name numCreated).2 in
  num = wrap_int (numCreated + 1)
  ∧ members th = new_thread
  ∧ name_ th =
      (if String.eqb name "" then ("Thread" ++ format_d num)%string else name)
  ∧ name_ th ≠ ""%string
  ∧ String.length ("Thread" ++ format_d num) ≤ 17.
Proof.
  unfold Thread_ctor, setDefaultName. cbn [fst snd name_ members].
  split; [reflexivity |].
  split; [destruct (String.eqb name ""); reflexivity |].
  split; [| split].
  - destruct (String.eqb name ""); cbn [name_]; [| reflexivity].
    apply snprintf_Thread_fits.
  - destruct (String.eqb_spec name "") as [-> | Hne]; cbn [name_].
    + rewrite snprintf_Thread_fits. discriminate.
    + exact Hne.
  - rewrite string_length_app.
    pose proof (format_d_length (wrap_int (numCreated + 1))). cbn. lia.
Qed.

Lemma construct_threads_lookup (names : list string) :
  ∀ (numCreated : Z) (i : nat) (name : string),
    names !! i = Some name →
    ∃ th,
      (construct_threads names numCreated).1 !! i = Some th ∧
      name_ th =
        (if String.eqb name ""
         then ("Thread" ++ format_d (wrap_int (numCreated + Z.of_nat i + 1)))%string
         else name).
Proof.
  induction names as [| name0 names IH]; intros numCreated i name Hi;
    [discriminate |].
  cbn [construct_threads].
  destruct (Thread_ctor name0 numCreated) as [th0 n1] eqn:Hctor.
  destruct (construct_threads names n1) as [ths n2] eqn:Hrest.
  cbn [fst].
  pose proof (Thread_ctor_name name0 numCreated) as (Hnum & Hname).
  rewrite Hctor in Hnum, Hname. cbn [fst snd] in Hnum, Hname.
  rewrite <- Hnum in Hname.
  destruct i as [| i].
  - injection Hi as <-. exists th0. split; [reflexivity |].
    rewrite Hname, Hnum. rewrite Z.add_0_r. reflexivity.
  - cbn in Hi. destruct (IH n1 i name Hi) as (th & Hth & Hn).
    rewrite Hrest in Hth. cbn [fst] in Hth.
    exists th. split; [exact Hth |].
    rewrite Hn, Hnum.
    replace (wrap_int (numCreated + 1) + Z.of_nat i + 1)%Z
      with (wrap_int (numCreated + 1) + (Z.of_nat i + 1))%Z by ring.
    rewrite wrap_int_add.
    replace (numCreated + 1 + (Z.of_nat i + 1))%Z
      with (numCreated + Z.of_nat (S i) + 1)%Z by lia.
    reflexivity.
Qed.

Lemma thread_prefix_inj (a b : string) :
  ("Thread" ++ a)%string = ("Thread" ++ b)%string → a = b.
Proof. intros H. simpl in H. injection H as H. exact H. Qed.

(** X11: threads constructed without a name get different names: among
    at most [2 ^ 32] threads constructed one after the other, any two
    that were given the empty name have different default names. *)
Theorem default_thread_names_differ
    (names : list string) (numCreated : Z) (i j : nat) (thi thj : NamedThread) :
  (Z.of_nat (length names) ≤ 2 ^ 32)%Z →
  i ≠ j →
  names !! i = Some ""%string →
  names !! j = Some ""%string →
  (construct_threads names numCreated).1 !! i = Some thi →
  (construct_threads names numCreated).1 !! j = Some thj →
  name_ thi ≠ name_ thj.
Proof.
  intros Hlen Hij Hi Hj Hthi Hthj Heq.
  destruct (construct_threads_lookup names numCreated i "" Hi)
    as (thi' & Hthi' & Hni).
  destruct (construct_threads_lookup names numCreated j "" Hj)
    as (thj' & Hthj' & Hnj).
  rewrite Hthi in Hthi'. injection Hthi' as <-.
  rewrite Hthj in Hthj'. injection Hthj' as <-.
  cbn [String.eqb] in Hni, Hnj. rewrite Hni, Hnj in Heq.
  apply thread_prefix_inj in Heq.
  apply format_d_inj in Heq;
    try (match goal with |- context [wrap_int ?n] =>
           pose proof (wrap_int_range n) end; lia).
  apply lookup_lt_Some in Hi. apply lookup_lt_Some in Hj.
  assert (Hcases : i < j ∨ j < i) by lia.
  replace (numCreated + Z.of_nat i + 1)%Z
    with (numCreated + 1 + Z.of_nat i)%Z in Heq by ring.
  replace (numCreated + Z.of_nat j + 1)%Z
    with (numCreated + 1 + Z.of_nat j)%Z in Heq by ring.
  destruct Hcases as [Hlt | Hlt].
  - apply (wrap_int_distinct (numCreated + 1) (Z.of_nat i) (Z.of_nat j));
      [lia | lia | exact Heq].
  - apply (wrap_int_distinct (numCreated + 1) (Z.of_nat j) (Z.of_nat i));
      [lia | lia | symmetry; exact Heq].
Qed.

Lemma default_thread_names_differ_witness :
  ∃ th0 th2,
    (construct_threads [""; "io"; ""]%string 0).1 !! 0 = Some th0 ∧
    (construct_threads [""; "io"; ""]%string 0).1 !! 2 = Some th2 ∧
    name_ th0 = "Thread1"%string ∧ name_ th2 = "Thread3"%string ∧
    name_ th0 ≠ name_ th2.
Proof.
  eexists _, _. split; [reflexivity |]. split; [reflexivity |].
  split; [reflexivity |]. split; [reflexivity |].
  apply (default_thread_names_differ [""; "io"; ""]%string 0 0 2).
  - cbn. lia.
  - lia.
  - reflexivity.
  - reflexivity.
  - reflexivity.
  - reflexivity.
Defined.

(** ** Joining and destroying a thread *)

Lemma thread_ops_inv (worker_tid : Z) (ops : list ThreadOp) :
  ∀ o o',
    thread_object_inv o →
    run_thread_ops worker_tid ops o = Done o' →
    thread_object_inv o'.
Proof.
  induction ops as [| op ops IH]; intros o o' Hinv Hrun.
  - injection Hrun as <-. exact Hinv.
  - cbn [run_thread_ops] in Hrun.
    destruct o as [fl th]. unfold thread_object_inv in Hinv. cbn in Hinv.
    destruct op; unfold Thread_start, Thread_join in Hrun; cbn in Hrun;
      destruct th as [[] |]; try discriminate Hrun;
      apply IH in Hrun; try exact Hrun; unfold thread_object_inv; cbn; tauto.
Qed.

(** X12: after calls of [start] and [join] that all returned, the
    destructor neither throws nor goes through an empty [thread_]; it
    detaches a thread that was started and not joined, and it returns,
    except in one case: a wrapper that was joined and then started again
    keeps [joined_] set, is not detached, and its destruction destroys a
    joinable [std::thread], which ends the process.  With at most one
    call of [start] the destructor always returns. *)
Theorem thread_destruction_after_start_and_join
    (worker_tid : Z) (ops : list ThreadOp) (o : ThreadObject) :
  run_thread_ops worker_tid ops new_thread_object = Done o →
  Thread_dtor o =
    match thread_ o with
    | Some Joinable => if joined_ (flags o) then Terminated else Done tt
    | _ => Done tt
    end
  ∧ (length (List.filter is_start ops) ≤ 1 → Thread_dtor o = Done tt)
  ∧ (thread_ o = Some NotJoinable →
     ∃ o1, Thread_start worker_tid o = Done o1 ∧ Thread_dtor o1 = Terminated).
Proof.
  intros Hrun.
  assert (Hinv : thread_object_inv o).
  { apply (thread_ops_inv worker_tid ops new_thread_object o);
      [split; reflexivity | exact Hrun]. }
  split; [| split].
  - destruct o as [[st jn td] [[] |]]; unfold thread_object_inv in Hinv;
      cbn in Hinv; unfold Thread_dtor; cbn.
    + subst st. destruct jn; reflexivity.
    + destruct Hinv as [-> ->]. reflexivity.
    + destruct Hinv as [-> ->]. reflexivity.
  - intros Hone.
    destruct ops as [| [] [| [] [| [] rest]]]; cbn in Hrun, Hone;
      try discriminate Hrun; try lia; injection Hrun as <-; reflexivity.
  - intros Hjoined.
    destruct o as [[st jn td] th]. cbn in Hjoined. subst th.
    unfold thread_object_inv in Hinv. cbn in Hinv. destruct Hinv as [-> ->].
    eexists. split; reflexivity.
Qed.

Lemma thread_destruction_after_start_and_join_witness :
  ∃ o, run_thread_ops 4711 [OpStart; OpJoin] new_thread_object = Done o ∧
       Thread_dtor o = Done tt ∧
       ∃ o1, Thread_start 4711 o = Done o1 ∧ Thread_dtor o1 = Terminated.
Proof.
  eexists. split; [reflexivity |].
  destruct (thread_destruction_after_start_and_join 4711 [OpStart; OpJoin]
              (mkThreadObject (mkThread true true 4711) (Some NotJoinable)))
    as (_ & Hone & Hagain).
  - reflexivity.
  - split; [apply Hone; cbn; lia | apply Hagain; reflexivity].
Defined.
